(** * modsec-log-review: correlation and aggregation engine

    A shallow embedding of the TypeScript sources
      - src/fpfinder/FPFilter.ts      (FPFilter, OrganizedError, IP, Data)
      - src/fpfinder/FPReviewer.ts    (FPReviewer)
      - src/tools/nslookup.ts         (nsLookup and its module-level cache)
      - src/inspection/LogFilter.ts   (LogFilter)
      - src/inspection/EntireLogReviewer.ts (EntireLogReviewer)
    followed by the properties of the specification settled on it.

    Conventions of the embedding.
      - A JavaScript [Map] keeps its entries in insertion order and
        [Map.prototype.set] on a key already present keeps that key's position:
        it is an association list with unique keys ([JSMap]).
      - A JavaScript number holding a counter is a [Z].
      - The classes of FPFilter.ts mutate [this] and return it; every object is
        reachable through one map slot only, so the update is a pure function on
        the record that is stored back under the same key.
      - A promise is represented by its final state ([promise]): fulfilled,
        rejected, or pending for ever.
      - [Date] parsing and [String.prototype.replace] are the host's: they are
        section variables. *)

From Stdlib Require Import List String Ascii ZArith Lia Bool Sorted Permutation Arith.
From Stdlib Require Import DecimalString.
Import ListNotations.

Local Open Scope string_scope.
Local Open Scope list_scope.

(** ** JavaScript values used by the sources *)

Module JS.

(** The values a [string | null | undefined] slot can hold. *)
Inductive value : Type :=
| Undefined
| Null
| Str (s : string).

(** [v != undefined] (loose inequality: [null == undefined] holds). *)
Definition neq_undefined (v : value) : bool :=
  match v with
  | Undefined | Null => false
  | Str _ => true
  end.

(** ToBoolean on such a value: the empty string is falsy. *)
Definition truthy (v : value) : bool :=
  match v with
  | Undefined | Null => false
  | Str s => negb (s =? "")
  end.

(** ToString, as performed by [+=] on a string and by template literals. *)
Definition to_string (v : value) : string :=
  match v with
  | Undefined => "undefined"
  | Null => "null"
  | Str s => s
  end.

(** Exceptions the modelled code can raise. *)
Inductive exn : Type :=
| TypeError (message : string).

Definition exn_name (e : exn) : string :=
  match e with
  | TypeError _ => "TypeError"
  end.

Definition exn_message (e : exn) : string :=
  match e with
  | TypeError m => m
  end.

(** A computation that returns or throws. *)
Inductive result (A : Type) : Type :=
| Return (a : A)
| Throw (e : exn).
Arguments Return {A} a.
Arguments Throw {A} e.

Definition bind {A B} (c : result A) (k : A -> result B) : result B :=
  match c with
  | Return a => k a
  | Throw e => Throw e
  end.

(** [Number.prototype.toString] on an integral counter. *)
Definition number_to_string (n : Z) : string :=
  NilZero.string_of_int (Z.to_int n).

(** [' '.repeat(n)] *)
Fixpoint spaces (n : nat) : string :=
  match n with
  | O => ""
  | S k => String " "%char (spaces k)
  end.

(** [s.split(sep)] for a one-character separator. *)
Fixpoint split (sep : ascii) (s : string) : list string :=
  match s with
  | EmptyString => [EmptyString]
  | String c s' =>
      if Ascii.eqb c sep then EmptyString :: split sep s'
      else match split sep s' with
           | [] => [String c EmptyString]
           | h :: t => String c h :: t
           end
  end.

(** [s.replace(/(c)/, r)] for a one-character pattern [c] and a replacement
    [r] free of [$]: only the first occurrence is replaced. *)
Fixpoint replace_first_char (c : ascii) (r : string) (s : string) : string :=
  match s with
  | EmptyString => EmptyString
  | String d s' =>
      if Ascii.eqb d c then r ++ s' else String d (replace_first_char c r s')
  end.

End JS.

(** ** Insertion-ordered maps with string keys *)

Section JSMap.
Context {V : Type}.

Definition JSMap := list (string * V).

(** [m.get(k)]; [None] is [undefined]. *)
Fixpoint Map_get (m : JSMap) (k : string) : option V :=
  match m with
  | [] => None
  | (k', v) :: m' => if k' =? k then Some v else Map_get m' k
  end.

(** [m.set(k, v)]: overwrite in place, or append a new entry. *)
Fixpoint Map_set (m : JSMap) (k : string) (v : V) : JSMap :=
  match m with
  | [] => [(k, v)]
  | (k', v') :: m' =>
      if k' =? k then (k', v) :: m' else (k', v') :: Map_set m' k v
  end.

(** [m.values()], [m.keys()] and [m.size]. *)
Definition Map_values (m : JSMap) : list V := map snd m.
Definition Map_keys (m : JSMap) : list string := map fst m.
Definition Map_size (m : JSMap) : Z := Z.of_nat (List.length m).

End JSMap.
Arguments JSMap V : clear implicits.

(** ** Arrays *)

Section JSArray.
Context {A : Type}.

(** [Array.prototype.sort(cmp)].  ECMAScript (since 2019) requires the sort to
    be stable, and the engine only ever asks whether [cmp(later, earlier) < 0],
    in which case the later element moves in front of the earlier one.  This
    is the stable insertion sort driven by that test.  (For [(x, y) => x.hits
    < y.hits ? -1 : 1], which never answers 0, the standard leaves the order
    to the implementation; V8 behaves as modelled here.) *)
Fixpoint sort_insert (cmp : A -> A -> Z) (x : A) (l : list A) : list A :=
  match l with
  | [] => [x]
  | y :: l' =>
      if (cmp y x <? 0)%Z then y :: sort_insert cmp x l' else x :: y :: l'
  end.

Fixpoint Array_sort (cmp : A -> A -> Z) (l : list A) : list A :=
  match l with
  | [] => []
  | x :: l' => sort_insert cmp x (Array_sort cmp l')
  end.

(** [a.indexOf(x)], with the identity of objects decided by [same]; -1 when
    absent. *)
Fixpoint indexOf_from (same : A -> A -> bool) (i : Z) (l : list A) (x : A) : Z :=
  match l with
  | [] => (-1)%Z
  | y :: l' => if same y x then i else indexOf_from same (i + 1)%Z l' x
  end.

Definition indexOf (same : A -> A -> bool) (l : list A) (x : A) : Z :=
  indexOf_from same 0%Z l x.

(** [a.find(p)] *)
Definition Array_find (p : A -> bool) (l : list A) : option A := List.find p l.

End JSArray.


(** ** Parsed log records (modsec-log-parse) *)

Module IRuleError.
Record t : Type := mk {
  id : string;
  msg : string;
  hostname : string;
  ip : string;
  data : string;
  date : string
}.
End IRuleError.

Module INormalLog.
Record t : Type := mk {
  ip : string;
  date : string;
  statusCode : string;
  method : string;
  uri : string;
  useragent : string
}.
End INormalLog.

(** ** src/fpfinder/FPFilter.ts *)

Module FPFilter.

(** class IP *)
Module IP.
Record t : Type := mk {
  hits : Z;
  dataUsed : list string;
  ip : string
}.

(** constructor *)
Definition new (ruleError : IRuleError.t) : t :=
  {| hits := 1;
     dataUsed := [IRuleError.data ruleError];
     ip := IRuleError.ip ruleError |}.

Definition collect (this : t) (ruleError : IRuleError.t) : t :=
  {| hits := hits this + 1;
     dataUsed := dataUsed this ++ [IRuleError.data ruleError];
     ip := ip this |}.
End IP.

(** class Data *)
Module Data.
Record t : Type := mk {
  ipList : list string;
  hits : Z;
  date : string;
  data : string
}.

(** constructor *)
Definition new (ruleError : IRuleError.t) : t :=
  {| ipList := [IRuleError.ip ruleError];
     hits := 1;
     date := IRuleError.date ruleError;
     data := IRuleError.data ruleError |}.

(** [collect] pushes the IP and increments [hits]; it assigns nothing to
    [date]. *)
Definition collect (this : t) (ruleError : IRuleError.t) : t :=
  {| ipList := ipList this ++ [IRuleError.ip ruleError];
     hits := hits this + 1;
     date := date this;
     data := data this |}.
End Data.

(** class OrganizedError *)
Module OrganizedError.
Record t : Type := mk {
  msg : string;
  id : string;
  hits : Z;
  ipList : JSMap IP.t;
  dataUsed : JSMap Data.t
}.

Definition collect (this : t) (ruleError : IRuleError.t) : t :=
  let savedIP := Map_get (ipList this) (IRuleError.ip ruleError) in
  let savedData := Map_get (dataUsed this) (IRuleError.data ruleError) in
  let ipList' :=
    match savedIP with
    | Some savedIP =>
        Map_set (ipList this) (IRuleError.ip ruleError) (IP.collect savedIP ruleError)
    | None =>
        Map_set (ipList this) (IRuleError.ip ruleError) (IP.new ruleError)
    end in
  let dataUsed' :=
    match savedData with
    | Some savedData =>
        Map_set (dataUsed this) (IRuleError.data ruleError) (Data.collect savedData ruleError)
    | None =>
        Map_set (dataUsed this) (IRuleError.data ruleError) (Data.new ruleError)
    end in
  {| msg := msg this;
     id := id this;
     hits := hits this + 1;
     ipList := ipList';
     dataUsed := dataUsed' |}.

(** constructor: [this.hits = 1], two empty maps, then [this.collect(ruleError)]. *)
Definition new (ruleError : IRuleError.t) : t :=
  collect
    {| msg := IRuleError.msg ruleError;
       id := IRuleError.id ruleError;
       hits := 1;
       ipList := [];
       dataUsed := [] |}
    ruleError.
End OrganizedError.

Record t : Type := mk {
  hostname : string;
  errors : JSMap OrganizedError.t
}.

(** The body of the [ruleErrors.forEach] callback of the constructor. *)
Definition organize (errors : JSMap OrganizedError.t) (ruleError : IRuleError.t)
  : JSMap OrganizedError.t :=
  match Map_get errors (IRuleError.id ruleError) with
  | Some ruleBroken =>
      Map_set errors (IRuleError.id ruleError) (OrganizedError.collect ruleBroken ruleError)
  | None =>
      Map_set errors (IRuleError.id ruleError) (OrganizedError.new ruleError)
  end.

(** constructor.  [ruleErrors[0]] is [undefined] on an empty array, and reading
    [.hostname] of it raises the engine's TypeError.  The class of the
    exception is fixed by the language; the text of its message is the
    engine's and varies with its version: the one below stands for it, and no
    property is stated about it. *)
Definition new (ruleErrors : list IRuleError.t) : JS.result t :=
  match nth_error ruleErrors 0 with
  | None => JS.Throw (JS.TypeError "Cannot read property 'hostname' of undefined")
  | Some first =>
      JS.Return {| hostname := IRuleError.hostname first;
                   errors := fold_left organize ruleErrors [] |}
  end.

End FPFilter.

(** ** Promises, by their final state *)

Module Promise.

Inductive reason : Type :=
| Value (v : JS.value)
| Exn (e : JS.exn).

Inductive t (A : Type) : Type :=
| Pending
| Fulfilled (a : A)
| Rejected (r : reason).
Arguments Pending {A}.
Arguments Fulfilled {A} a.
Arguments Rejected {A} r.

Definition settled {A} (p : t A) : bool :=
  match p with
  | Pending => false
  | _ => true
  end.

(** [Promise.all(ps)]: rejected as soon as one input is rejected, fulfilled
    with all the values once every input is fulfilled, pending otherwise. *)
Fixpoint first_rejection {A} (ps : list (t A)) : option reason :=
  match ps with
  | [] => None
  | Rejected r :: _ => Some r
  | _ :: ps' => first_rejection ps'
  end.

Fixpoint all_fulfilled {A} (ps : list (t A)) : option (list A) :=
  match ps with
  | [] => Some []
  | Fulfilled a :: ps' =>
      match all_fulfilled ps' with
      | Some l => Some (a :: l)
      | None => None
      end
  | _ :: _ => None
  end.

Definition all {A} (ps : list (t A)) : t (list A) :=
  match first_rejection ps with
  | Some r => Rejected r
  | None =>
      match all_fulfilled ps with
      | Some l => Fulfilled l
      | None => Pending
      end
  end.

(** [new Promise((resolve) => p.then((a) => resolve(f a)))]: nothing is
    registered for the rejection of [p], and [reject] is never called, so the
    new promise stays pending unless [p] is fulfilled (a rejection of [p] is
    left unhandled). *)
Definition resolve_after {A B} (p : t A) (f : A -> B) : t B :=
  match p with
  | Fulfilled a => Fulfilled (f a)
  | _ => Pending
  end.

End Promise.

(** ** src/tools/nslookup.ts *)

Module NsLookup.

(** What [dns.reverse] hands to its callback: [(err, hostname)].  [err] is an
    error object or null; [hostname] is the array of names, possibly empty, or
    is missing. *)
Record answer : Type := mk_answer {
  err : option string;
  hostname : option (list string)
}.

(** The resolver: the answer the callback receives for each address. *)
Definition resolver : Type := string -> answer.

(** The module-level cache [collected] together with the log of the addresses
    [dns.reverse] was called on. *)
Record world : Type := mk_world {
  collected : JSMap JS.value;
  reverse_calls : list string
}.

(** [hostname[0]] *)
Definition first_name (names : list string) : JS.value :=
  match names with
  | [] => JS.Undefined
  | h :: _ => JS.Str h
  end.

(** [nsLookup(ip)] run until the callback of [dns.reverse], if any, has
    returned: the final state of the promise and the world left behind. *)
Definition nsLookup (dns : resolver) (w : world) (ip : string)
  : Promise.t JS.value * world :=
  let result :=
    match Map_get (collected w) ip with
    | Some v => v
    | None => JS.Undefined
    end in
  if JS.neq_undefined result then (Promise.Fulfilled result, w)
  else
    let calls := reverse_calls w ++ [ip] in
    match err (dns ip), hostname (dns ip) with
    | Some _, _ =>
        (Promise.Rejected (Promise.Value JS.Null),
         {| collected := Map_set (collected w) ip JS.Null; reverse_calls := calls |})
    | None, Some names =>
        (Promise.Fulfilled (first_name names),
         {| collected := Map_set (collected w) ip (first_name names);
            reverse_calls := calls |})
    | None, None =>
        (Promise.Pending, {| collected := collected w; reverse_calls := calls |})
    end.

(** The state of the cache for one address, as a later reader tells it apart. *)
Definition cached (w : world) (ip : string) : option JS.value :=
  Map_get (collected w) ip.

(** An empty cache, as at start-up. *)
Definition start : world := {| collected := []; reverse_calls := [] |}.

End NsLookup.

(** ** src/fpfinder/FPReviewer.ts *)

Module FPReviewer.

Import FPFilter.
Local Open Scope string_scope.

Definition LF : string := String "010"%char EmptyString.
Definition TAB : string := String "009"%char EmptyString.

(** [fixWhiteSpace(data, length)] *)
Definition fixWhiteSpace (data : string) (length : nat) : string :=
  if (String.length data <? length)%nat
  then data ++ JS.spaces (length - String.length data)%nat
  else data.

(** Objects stored in a map under distinct keys are distinct objects, and the
    constructors store the key in the object: identity is decided on it. *)
Definition same_IP (x y : IP.t) : bool := IP.ip x =? IP.ip y.
Definition same_Data (x y : Data.t) : bool := Data.data x =? Data.data y.

Section Reviewer.

(** [subject.replace(/(pattern)/, replacement)] of the host. *)
Variable String_replace : string -> string -> string -> string.

(** The resolver behind [dns.reverse] and the cache when the review starts. *)
Variable dns : NsLookup.resolver.
Variable world0 : NsLookup.world.

(** One row of the overview table. *)
Definition overview_row (ruleBroken : OrganizedError.t) : string :=
  let row := "IPS" ++ TAB ++ "HITS" ++ TAB ++ "ID" ++ TAB ++ "MSG" ++ LF in
  let row := String_replace row "IPS"
    (fixWhiteSpace (JS.number_to_string (Map_size (OrganizedError.ipList ruleBroken))) 3) in
  let row := String_replace row "HITS"
    (fixWhiteSpace (JS.number_to_string (OrganizedError.hits ruleBroken)) 4) in
  let row := String_replace row "ID" (OrganizedError.id ruleBroken) in
  String_replace row "MSG" (OrganizedError.msg ruleBroken).

Definition overview_header (filtered : FPFilter.t) : string :=
  "Reviewing ModSec logs for " ++ hostname filtered ++ LF
  ++ "IPs" ++ TAB ++ "Hits" ++ TAB ++ "Rule  " ++ TAB ++ "Message" ++ LF.

(** [getOverview()] *)
Definition getOverview (filtered : FPFilter.t) : string :=
  fold_left (fun output entry => output ++ overview_row (snd entry))
            (errors filtered) (overview_header filtered).

(** The array [sortedIPs] of [reviewIP] after [sort(...).reverse()]. *)
Definition sortedIPs (ruleError : OrganizedError.t) : list IP.t :=
  rev (Array_sort (fun x y => IP.hits x - IP.hits y)%Z
                  (Map_values (OrganizedError.ipList ruleError))).

Definition ip_header (ruleError : OrganizedError.t) : string :=
  let size := Map_size (OrganizedError.ipList ruleError) in
  " - IP Addresses ("
  ++ (if (10 <=? size)%Z
      then "Top 10 of " ++ JS.number_to_string size
      else JS.number_to_string size)
  ++ ")" ++ LF.

Definition ip_row (lookupCollection : option (JSMap string)) (ip : IP.t) : string :=
  let hostname :=
    match lookupCollection with
    | Some collection =>
        match Map_get collection (IP.ip ip) with
        | Some h => JS.Str h
        | None => JS.Undefined
        end
    | None => JS.Str "no-lookup"
    end in
  TAB ++ " - " ++ JS.number_to_string (IP.hits ip) ++ " - "
  ++ fixWhiteSpace (IP.ip ip) 15 ++ TAB
  ++ "[" ++ (if JS.truthy hostname then JS.to_string hostname else "null") ++ "]" ++ LF.

(** [reviewIP(ruleError)] *)
Definition reviewIP (lookupCollection : option (JSMap string))
  (ruleError : OrganizedError.t) : string :=
  let sorted := sortedIPs ruleError in
  fold_left
    (fun ipBreakdown ip =>
       if (indexOf same_IP sorted ip <=? 9)%Z
       then ipBreakdown ++ ip_row lookupCollection ip
       else ipBreakdown)
    sorted (ip_header ruleError).

(** The array [sortedData] of [reviewDataSent] after [sort(...)]. *)
Definition sortedData (ruleError : OrganizedError.t) : list Data.t :=
  Array_sort (fun x y => if (Data.hits x <? Data.hits y)%Z then (-1)%Z else 1%Z)
             (Map_values (OrganizedError.dataUsed ruleError)).

Definition data_header (ruleError : OrganizedError.t) : string :=
  let size := Map_size (OrganizedError.dataUsed ruleError) in
  " - Data Match ("
  ++ (if (9 <=? size)%Z
      then "10/" ++ JS.number_to_string size
      else JS.number_to_string size)
  ++ ")" ++ LF.

Definition data_row (data : Data.t) : string :=
  TAB ++ " - " ++ JS.number_to_string (Data.hits data) ++ " - " ++ Data.data data ++ LF.

(** [reviewDataSent(ruleError)] *)
Definition reviewDataSent (ruleError : OrganizedError.t) : string :=
  let sorted := sortedData ruleError in
  fold_left
    (fun output data =>
       if (indexOf same_Data sorted data <=? 9)%Z
       then output ++ data_row data
       else output)
    sorted (data_header ruleError)
  ++ LF.

(** The rows the two loops append, in the order they append them. *)
Definition renderedIPs (ruleError : OrganizedError.t) : list IP.t :=
  let sorted := sortedIPs ruleError in
  filter (fun ip => (indexOf same_IP sorted ip <=? 9)%Z) sorted.

Definition renderedData (ruleError : OrganizedError.t) : list Data.t :=
  let sorted := sortedData ruleError in
  filter (fun data => (indexOf same_Data sorted data <=? 9)%Z) sorted.

(** [recursiveLookup()].  Every [nsLookup] is started inside the two
    synchronous [forEach] loops, hence reads the cache of [world0]; the inner
    [new Promise(async (resolve) => ...)] resolves only when the lookup is
    fulfilled. *)
Definition recursiveLookup (filtered : FPFilter.t) : Promise.t (JSMap string) :=
  let promises :=
    flat_map
      (fun error =>
         map (fun ip =>
                Promise.resolve_after
                  (fst (NsLookup.nsLookup dns world0 (IP.ip ip)))
                  (fun result => (IP.ip ip, result)))
             (Map_values (OrganizedError.ipList error)))
      (Map_values (errors filtered)) in
  Promise.resolve_after (Promise.all promises)
    (fun lookups =>
       fold_left
         (fun collection value =>
            let ip := fst value in
            let result := snd value in
            if JS.truthy (JS.Str ip) && JS.truthy result
            then Map_set collection ip (JS.to_string result)
            else collection)
         lookups []).

Definition breakdown_header (filtered : FPFilter.t) : string :=
  "Reviewing detailed breakdown for " ++ hostname filtered ++ LF.

(** [getBreakdown()], from the point where [lookupCollection] is assigned. *)
Definition breakdown_body (lookupCollection : option (JSMap string))
  (filtered : FPFilter.t) : string :=
  fold_left
    (fun output entry =>
       let ruleBroken := snd entry in
       output ++ OrganizedError.id ruleBroken ++ " Breakdown - "
       ++ OrganizedError.msg ruleBroken ++ LF
       ++ reviewIP lookupCollection ruleBroken
       ++ reviewDataSent ruleBroken)
    (errors filtered) (breakdown_header filtered).

Definition getBreakdown (doNSLookup : bool) (filtered : FPFilter.t)
  : Promise.t string :=
  if doNSLookup
  then Promise.resolve_after (recursiveLookup filtered)
         (fun collection => breakdown_body (Some collection) filtered)
  else Promise.Fulfilled (breakdown_body None filtered).

(** [new FPReviewer(ruleErrors, doNSLookup).getReview()] *)
Definition getReview (ruleErrors : list IRuleError.t) (doNSLookup : bool)
  : JS.result (Promise.t string) :=
  JS.bind (FPFilter.new ruleErrors) (fun filtered =>
    let fpOverview := getOverview filtered in
    JS.Return
      (Promise.resolve_after (getBreakdown doNSLookup filtered)
         (fun fpBreakdown => fpOverview ++ LF ++ fpBreakdown))).

End Reviewer.

End FPReviewer.

(** ** src/inspection/LogFilter.ts *)

Module LogFilter.

(** type IP *)
Module IP.
Record t : Type := mk {
  brokenRules : list IRuleError.t;
  allActivities : list INormalLog.t;
  ip : string;
  rejectedRequests : list INormalLog.t;
  useragent : string;
  nsLookup : string
}.
End IP.

(** interface RuleErrorCollection extends IRuleError *)
Module RuleErrorCollection.
Record t : Type := mk {
  ruleError : IRuleError.t;
  ips : list IP.t
}.
Definition msg (c : t) : string := IRuleError.msg (ruleError c).
End RuleErrorCollection.

Section Filter.

Variable dns : NsLookup.resolver.
Variable world0 : NsLookup.world.

Variable normalLogs : list INormalLog.t.
Variable ruleErrors : list IRuleError.t.
Variable doNSLookup : bool.

(** The callback of [this.ruleErrors.forEach] in [gatherIPs], on the pair of
    locals [(ips, lookups)].  [result.then((hostname) => newIP.nsLookup +=
    hostname)] runs only if the lookup is fulfilled, and before the
    continuation of [Promise.all]; its effect is written into [newIP] here. *)
Definition gather (state : JSMap IP.t * list (Promise.t JS.value))
  (ruleError : IRuleError.t) : JSMap IP.t * list (Promise.t JS.value) :=
  let ips := fst state in
  let lookups := snd state in
  match Map_get ips (IRuleError.ip ruleError) with
  | Some ip =>
      (Map_set ips (IRuleError.ip ruleError)
         {| IP.brokenRules := IP.brokenRules ip ++ [ruleError];
            IP.allActivities := IP.allActivities ip;
            IP.ip := IP.ip ip;
            IP.rejectedRequests := IP.rejectedRequests ip;
            IP.useragent := IP.useragent ip;
            IP.nsLookup := IP.nsLookup ip |},
       lookups)
  | None =>
      let newIP (nsLookup : string) :=
        {| IP.brokenRules := [ruleError];
           IP.allActivities := [];
           IP.ip := IRuleError.ip ruleError;
           IP.rejectedRequests := [];
           IP.useragent := "";
           IP.nsLookup := nsLookup |} in
      if doNSLookup then
        let result := fst (NsLookup.nsLookup dns world0 (IRuleError.ip ruleError)) in
        let nsLookup :=
          match result with
          | Promise.Fulfilled hostname => ("" ++ JS.to_string hostname)%string
          | _ => ""
          end in
        (Map_set ips (IRuleError.ip ruleError) (newIP nsLookup), lookups ++ [result])
      else
        (Map_set ips (IRuleError.ip ruleError) (newIP ("" ++ "no-lookup")%string), lookups)
  end.

(** [gatherIPs()]: resolved by [Promise.all(lookups).then(() => resolve(ips))]
    and by nothing else. *)
Definition gatherIPs : Promise.t (JSMap IP.t) :=
  let state := fold_left gather ruleErrors ([], []) in
  Promise.resolve_after (Promise.all (snd state)) (fun _ => fst state).

(** [filterNormalLogs(ips)] *)
Definition overlay (ips : JSMap IP.t) (normalLog : INormalLog.t) : JSMap IP.t :=
  match Map_get ips (INormalLog.ip normalLog) with
  | Some ip =>
      Map_set ips (INormalLog.ip normalLog)
        {| IP.brokenRules := IP.brokenRules ip;
           IP.allActivities := IP.allActivities ip ++ [normalLog];
           IP.ip := IP.ip ip;
           IP.rejectedRequests :=
             if negb (INormalLog.statusCode normalLog =? "200")%string
             then IP.rejectedRequests ip ++ [normalLog]
             else IP.rejectedRequests ip;
           IP.useragent :=
             if (String.length (IP.useragent ip) =? 0)%nat
             then INormalLog.useragent normalLog
             else IP.useragent ip;
           IP.nsLookup := IP.nsLookup ip |}
  | None => ips
  end.

Definition filterNormalLogs (ips : JSMap IP.t) : JSMap IP.t :=
  fold_left overlay normalLogs ips.

(** [filterErrorLogs(ips)].  The profiles are no longer modified once this
    runs, so the references pushed into [ips] arrays are copies here. *)
Definition regroup (ips : JSMap IP.t) (errors : JSMap RuleErrorCollection.t)
  (ruleError : IRuleError.t) : JSMap RuleErrorCollection.t :=
  let recordedError := Map_get errors (IRuleError.id ruleError) in
  let recordedIP := Map_get ips (IRuleError.ip ruleError) in
  match recordedError, recordedIP with
  | Some recordedError, Some recordedIP =>
      match Array_find (fun x => IP.ip x =? IP.ip recordedIP)%string
                       (RuleErrorCollection.ips recordedError) with
      | None =>
          Map_set errors (IRuleError.id ruleError)
            {| RuleErrorCollection.ruleError := RuleErrorCollection.ruleError recordedError;
               RuleErrorCollection.ips := RuleErrorCollection.ips recordedError ++ [recordedIP] |}
      | Some _ => errors
      end
  | None, Some recordedIP =>
      Map_set errors (IRuleError.id ruleError)
        {| RuleErrorCollection.ruleError := ruleError;
           RuleErrorCollection.ips := [recordedIP] |}
  | _, None => errors
  end.

Definition filterErrorLogs (ips : JSMap IP.t) : JSMap RuleErrorCollection.t :=
  fold_left (regroup ips) ruleErrors [].

(** [filter()]: [new Promise(async (resolve) => { let ips = await
    this.gatherIPs(); ...; resolve(finalFilter) })]. *)
Definition filter : Promise.t (JSMap RuleErrorCollection.t) :=
  Promise.resolve_after gatherIPs
    (fun ips => filterErrorLogs (filterNormalLogs ips)).

End Filter.

End LogFilter.

(** ** src/inspection/EntireLogReviewer.ts *)

Module EntireLogReviewer.

Import LogFilter.
Local Open Scope string_scope.

Definition LF : string := FPReviewer.LF.

(** The time value of a [Date]: [None] is NaN, the value of an invalid date. *)
Definition Date : Type := option Z.

(** [a <= b] on the numbers two operands convert to; false when either is NaN. *)
Definition number_le (a b : option Z) : bool :=
  match a, b with
  | Some x, Some y => (x <=? y)%Z
  | _, _ => false
  end.

(** ToNumber of a local of type [Date] that may still be [undefined]. *)
Definition to_number (d : option Date) : option Z :=
  match d with
  | Some (Some t) => Some t
  | _ => None
  end.

Section Reviewer.

(** [new Date(s)] for a string in the host's own formats, and the two getters
    used for rendering. *)
Variable Date_parse : string -> Date.
Variable Date_getHours : Z -> Z.
Variable Date_getMinutes : Z -> Z.

Definition hours (d : Date) : string :=
  match d with
  | Some t => JS.number_to_string (Date_getHours t)
  | None => "NaN"
  end.

Definition minutes (d : Date) : string :=
  match d with
  | Some t => JS.number_to_string (Date_getMinutes t)
  | None => "NaN"
  end.

(** [getHeader(ip)] *)
Definition getHeader (ip : IP.t) : string :=
  IP.ip ip ++ "'s activity" ++ LF ++ " - nslookup: " ++ IP.nsLookup ip ++ LF
  ++ " - user-agent: " ++ IP.useragent ip ++ LF.

(** [fixDate(date)]: [selected[2].replace] raises when the string has fewer
    than three fields. *)
Definition fixDate (date : string) : JS.result Date :=
  let selected := JS.split "/" date in
  let field (i : nat) :=
    match nth_error selected i with
    | Some s => s
    | None => "undefined"
    end in
  match nth_error selected 2 with
  | None => JS.Throw (JS.TypeError "Cannot read property 'replace' of undefined")
  | Some year_and_time =>
      JS.Return
        (Date_parse
           (field 1%nat ++ "/" ++ field 0%nat ++ "/"
            ++ hd "" (JS.split "+" (JS.replace_first_char ":" " " year_and_time))))
  end.

(** The locals of [getBreakdown] threaded through its first loop. *)
Record scan : Type := mk_scan {
  top10Data : string;
  first : option Date;
  last : option Date;
  i : Z
}.

Definition scan_rule (s : scan) (ruleError : IRuleError.t) : scan :=
  let date := Date_parse (IRuleError.date ruleError) in
  {| top10Data :=
       if (i s <=? 9)%Z
       then top10Data s ++ " [" ++ hours date ++ ":" ++ minutes date ++ "]: "
            ++ IRuleError.data ruleError ++ LF
       else top10Data s;
     first := if (i s =? 0)%Z then Some date else first s;
     last := Some date;
     i := (i s + 1)%Z |}.

Definition scan_rules (ip : IP.t) (id : string) : scan :=
  fold_left scan_rule
    (List.filter (fun x => IRuleError.id x =? id) (IP.brokenRules ip))
    {| top10Data := "Top 10 most used data:" ++ LF;
       first := None; last := None; i := 0 |}.

(** [date <= last && date >= first] *)
Definition in_window (s : scan) (date : Date) : bool :=
  number_le date (to_number (last s)) && number_le (to_number (first s)) date.

Definition reject_row (date : Date) (rejected : INormalLog.t) : string :=
  " [" ++ hours date ++ ":" ++ minutes date ++ "] ["
  ++ INormalLog.statusCode rejected ++ "/" ++ INormalLog.method rejected ++ "]: "
  ++ INormalLog.uri rejected ++ LF.

(** [getBreakdown(ip, id)] *)
Definition getBreakdown (ip : IP.t) (id : string) : JS.result string :=
  let s := scan_rules ip id in
  JS.bind
    (fold_left
       (fun acc rejected =>
          JS.bind acc (fun rejects =>
          JS.bind (fixDate (INormalLog.date rejected)) (fun date =>
          JS.Return (if in_window s date
                     then rejects ++ reject_row date rejected
                     else rejects))))
       (IP.rejectedRequests ip)
       (JS.Return ("Rejected requests:" ++ LF ++ ";")))
    (fun rejects => JS.Return (top10Data s ++ LF ++ rejects ++ LF)).

(** The rejected requests for which the second loop of [getBreakdown] appends
    a row, with the date it parsed for each. *)
Fixpoint rendered_rejects (s : scan) (rejectedRequests : list INormalLog.t)
  : JS.result (list (Date * INormalLog.t)) :=
  match rejectedRequests with
  | [] => JS.Return []
  | rejected :: rest =>
      JS.bind (fixDate (INormalLog.date rejected)) (fun date =>
      JS.bind (rendered_rejects s rest) (fun rows =>
      JS.Return (if in_window s date then (date, rejected) :: rows else rows)))
  end.

(** The synchronous part of [getReview()], once [filter.filter()] has
    delivered [filtered]. *)
Definition render (filtered : JSMap RuleErrorCollection.t) : JS.result string :=
  fold_left
    (fun acc entry =>
       let ruleID := fst entry in
       let ruleError := snd entry in
       fold_left
         (fun acc ip =>
            JS.bind acc (fun str =>
            JS.bind (getBreakdown ip ruleID) (fun breakdown =>
            JS.Return (str ++ getHeader ip ++ breakdown))))
         (RuleErrorCollection.ips ruleError)
         (JS.bind acc (fun str =>
            JS.Return
              (str ++ "["
               ++ JS.number_to_string (Z.of_nat (List.length (RuleErrorCollection.ips ruleError)))
               ++ "] " ++ ruleID ++ " - " ++ RuleErrorCollection.msg ruleError ++ LF))))
    filtered (JS.Return "").

Variable dns : NsLookup.resolver.
Variable world0 : NsLookup.world.

(** [new EntireLogReviewer(normalLogs, ruleErrors, doNSLookup).getReview()] *)
Definition getReview (normalLogs : list INormalLog.t)
  (ruleErrors : list IRuleError.t) (doNSLookup : bool) : Promise.t string :=
  match LogFilter.filter dns world0 normalLogs ruleErrors doNSLookup with
  | Promise.Fulfilled filtered =>
      match render filtered with
      | JS.Return str => Promise.Fulfilled str
      | JS.Throw e => Promise.Rejected (Promise.Exn e)
      end
  | Promise.Pending => Promise.Pending
  | Promise.Rejected r => Promise.Rejected r
  end.

End Reviewer.

End EntireLogReviewer.

(** ** src/issueReview/IssueReviewer.ts *)

(** An entry of the error log as [IssueReviewer] reads it: the discriminant
    [type], the fields printed, and [hostname], which only rule errors carry
    ([JS.Undefined] elsewhere). *)
Module IModSecError.
Record t : Type := mk {
  type : string;
  date : string;
  msg : string;
  hostname : JS.value
}.

(** A rule error seen as an entry of the unfiltered error log. *)
Definition of_rule (r : IRuleError.t) : t :=
  {| type := "rule";
     date := IRuleError.date r;
     msg := IRuleError.msg r;
     hostname := JS.Str (IRuleError.hostname r) |}.
End IModSecError.

Module IssueReviewer.
Local Open Scope string_scope.

(** type FilteredIssues *)
Record FilteredIssues : Type := mk {
  issues : list IModSecError.t;
  hostname : string
}.

(** The callback of [errors.forEach] in [filter]. *)
Definition classify (filtered : FilteredIssues) (error : IModSecError.t)
  : FilteredIssues :=
  if negb (IModSecError.type error =? "rule")
  then {| issues := (issues filtered ++ [error])%list; hostname := hostname filtered |}
  else if (String.length (hostname filtered) <=? 0)%nat
          && JS.truthy (IModSecError.hostname error)
       then {| issues := issues filtered;
               hostname := JS.to_string (IModSecError.hostname error) |}
       else filtered.

(** [IssueReviewer.filter(errors)] *)
Definition filter (errors : list IModSecError.t) : FilteredIssues :=
  fold_left classify errors {| issues := []; hostname := "" |}.

Definition issue_row (error : IModSecError.t) : string :=
  "[" ++ IModSecError.date error ++ "] [" ++ IModSecError.type error ++ "]: "
  ++ IModSecError.msg error ++ FPReviewer.LF.

(** [new IssueReviewer(errors).getReview()] *)
Definition getReview (errors : list IModSecError.t) : string :=
  let filtered := filter errors in
  fold_left (fun results error => results ++ issue_row error)
    (issues filtered)
    (JS.number_to_string (Z.of_nat (List.length (issues filtered)))
     ++ " issues in " ++ hostname filtered ++ FPReviewer.LF).

End IssueReviewer.

(** * Vocabulary of the properties *)

Section Vocabulary.
Context {A : Type}.

(** [x] occurs in [l] and [y] occurs somewhere after it. *)
Definition before (x y : A) (l : list A) : Prop :=
  exists l1 l2 l3, l = l1 ++ x :: l2 ++ y :: l3.

(** Non-decreasing and non-increasing in a numeric key. *)
Definition ascending (key : A -> Z) : list A -> Prop :=
  StronglySorted (fun a b => (key a <= key b)%Z).

Definition descending (key : A -> Z) : list A -> Prop :=
  StronglySorted (fun a b => (key b <= key a)%Z).

(** In [l], a record satisfying [p] occurs before any record satisfying [q]:
    what [p] describes is first seen before what [q] describes. *)
Definition first_seen_before (p q : A -> bool) (l : list A) : Prop :=
  exists l1 r l2, l = l1 ++ r :: l2 /\ p r = true /\ forallb (fun r' => negb (q r')) l1 = true.

(** A map whose values carry their own key. *)
Definition keyed (ident : A -> string) (m : JSMap A) : Prop :=
  NoDup (Map_keys m) /\ forall k v, In (k, v) m -> ident v = k.

End Vocabulary.

(** What a locate-or-create loop does to the key sequence of a map. *)
Definition note (seen : list string) (k : string) : list string :=
  if existsb (String.eqb k) seen then seen else seen ++ [k].

Module FPFilterSpec.
Import FPFilter.

(** The object the constructor of [OrganizedError] builds before it calls
    [collect]. *)
Definition blank (ruleError : IRuleError.t) : OrganizedError.t :=
  {| OrganizedError.msg := IRuleError.msg ruleError;
     OrganizedError.id := IRuleError.id ruleError;
     OrganizedError.hits := 1;
     OrganizedError.ipList := [];
     OrganizedError.dataUsed := [] |}.

(** The input records carrying one rule id. *)
Definition records_of (id : string) (ruleErrors : list IRuleError.t) : list IRuleError.t :=
  filter (fun r => IRuleError.id r =? id)%string ruleErrors.

(** The group these records are collected into. *)
Definition group_of (records : list IRuleError.t) : option OrganizedError.t :=
  match records with
  | [] => None
  | r :: _ => Some (fold_left OrganizedError.collect records (blank r))
  end.

(** The sum of the hit counters of all the groups. *)
Definition total_hits (errors : JSMap OrganizedError.t) : Z :=
  fold_right (fun entry acc => (OrganizedError.hits (snd entry) + acc)%Z) 0%Z errors.

Definition wf_group (g : OrganizedError.t) : Prop :=
  keyed IP.ip (OrganizedError.ipList g) /\ keyed Data.data (OrganizedError.dataUsed g).

(** Records of rule [id] whose address, respectively payload, is [k]. *)
Definition has_ip (id k : string) (r : IRuleError.t) : bool :=
  ((IRuleError.id r =? id) && (IRuleError.ip r =? k))%string.

Definition has_data (id k : string) (r : IRuleError.t) : bool :=
  ((IRuleError.id r =? id) && (IRuleError.data r =? k))%string.

End FPFilterSpec.

(** * Sample inputs *)

Module Sample.
Local Open Scope string_scope.

(** Two hits of rule 942100 from one address with the same payload, ten
    minutes apart. *)
Definition sqli_first : IRuleError.t :=
  IRuleError.mk "942100" "SQL Injection Attack" "example.com" "1.1.1.1"
                "a' OR '1'='1" "Wed Jan 15 10:00:00 2020".

Definition sqli_again : IRuleError.t :=
  IRuleError.mk "942100" "SQL Injection Attack" "example.com" "1.1.1.1"
                "a' OR '1'='1" "Wed Jan 15 10:10:00 2020".

(** A hit of the same rule from another address, with another payload, logged
    for another host. *)
Definition sqli_other : IRuleError.t :=
  IRuleError.mk "942100" "SQL Injection Attack" "shop.example.org" "2.2.2.2"
                "b' OR '2'='2" "Wed Jan 15 10:20:00 2020".

(** A resolver that fails for every address, and one whose callback gets
    neither an error nor a list of names. *)
Definition dns_failing : NsLookup.resolver :=
  fun _ => NsLookup.mk_answer (Some "ENOTFOUND") None.

Definition dns_silent : NsLookup.resolver :=
  fun _ => NsLookup.mk_answer None None.

(** A clock for the few date strings of the samples (seconds of the day). *)
Definition clock (s : string) : option Z :=
  if s =? "Wed Jan 15 10:00:00 2020" then Some 36000%Z
  else if s =? "Wed Jan 15 10:10:00 2020" then Some 36600%Z
  else if s =? "Wed Jan 15 10:20:00 2020" then Some 37200%Z
  else if s =? "Jan/15/2020 10:05:00 " then Some 36300%Z
  else if s =? "Jan/15/2020 11:00:00 " then Some 39600%Z
  else None.

Definition clock_hours (t : Z) : Z := (t / 3600)%Z.
Definition clock_minutes (t : Z) : Z := ((t mod 3600) / 60)%Z.

(** A rejected request inside the ten minutes, and one after them. *)
Definition forbidden_inside : INormalLog.t :=
  INormalLog.mk "1.1.1.1" "15/Jan/2020:10:05:00 +0000" "403" "GET" "/login" "curl/7.68.0".

Definition forbidden_after : INormalLog.t :=
  INormalLog.mk "1.1.1.1" "15/Jan/2020:11:00:00 +0000" "403" "GET" "/admin" "curl/7.68.0".

(** The profile [LogFilter] builds for 1.1.1.1 from these records, lookups
    disabled. *)
Definition profile : LogFilter.IP.t :=
  {| LogFilter.IP.brokenRules := [sqli_first; sqli_again];
     LogFilter.IP.allActivities := [forbidden_inside; forbidden_after];
     LogFilter.IP.ip := "1.1.1.1";
     LogFilter.IP.rejectedRequests := [forbidden_inside; forbidden_after];
     LogFilter.IP.useragent := "curl/7.68.0";
     LogFilter.IP.nsLookup := "no-lookup" |}.

(** The groups of [sqli_first; sqli_other]. *)
Definition two_addresses : JSMap FPFilter.OrganizedError.t :=
  Eval vm_compute in fold_left FPFilter.organize [sqli_first; sqli_other] [].

Definition two_addresses_group : FPFilter.OrganizedError.t :=
  Eval vm_compute in
    match two_addresses with
    | [(_, g)] => g
    | _ => FPFilterSpec.blank sqli_first
    end.

(** The entries of that group. *)
Definition first_address : FPFilter.IP.t :=
  {| FPFilter.IP.hits := 1; FPFilter.IP.dataUsed := ["a' OR '1'='1"];
     FPFilter.IP.ip := "1.1.1.1" |}.

Definition other_address : FPFilter.IP.t :=
  {| FPFilter.IP.hits := 1; FPFilter.IP.dataUsed := ["b' OR '2'='2"];
     FPFilter.IP.ip := "2.2.2.2" |}.

Definition first_payload : FPFilter.Data.t :=
  {| FPFilter.Data.ipList := ["1.1.1.1"]; FPFilter.Data.hits := 1;
     FPFilter.Data.date := "Wed Jan 15 10:00:00 2020";
     FPFilter.Data.data := "a' OR '1'='1" |}.

Definition other_payload : FPFilter.Data.t :=
  {| FPFilter.Data.ipList := ["2.2.2.2"]; FPFilter.Data.hits := 1;
     FPFilter.Data.date := "Wed Jan 15 10:20:00 2020";
     FPFilter.Data.data := "b' OR '2'='2" |}.

(** A resolver that reports success with an empty list of names. *)
Definition dns_no_names : NsLookup.resolver :=
  fun _ => NsLookup.mk_answer None (Some []).

End Sample.

(** * Vocabulary of the further properties *)

Module FPFilterStats.
Import FPFilter.

(** The entry an address, respectively a payload, gets from the records [m]
    that carry it, in input order: none when there is no such record. *)
Definition ip_entry (k : string) (m : list IRuleError.t) : option IP.t :=
  match m with
  | [] => None
  | _ :: _ =>
      Some {| IP.hits := Z.of_nat (List.length m);
              IP.dataUsed := map IRuleError.data m;
              IP.ip := k |}
  end.

Definition data_entry (k : string) (m : list IRuleError.t) : option Data.t :=
  match m with
  | [] => None
  | r :: _ =>
      Some {| Data.ipList := map IRuleError.ip m;
              Data.hits := Z.of_nat (List.length m);
              Data.date := IRuleError.date r;
              Data.data := k |}
  end.

End FPFilterStats.

Module LogFilterSpec.
Import LogFilter.
Local Open Scope string_scope.

(** What [gatherIPs] leaves in the [nsLookup] field of the profile of [k]. *)
Definition lookup_text (dns : NsLookup.resolver) (w : NsLookup.world)
  (doNSLookup : bool) (k : string) : string :=
  if doNSLookup
  then match fst (NsLookup.nsLookup dns w k) with
       | Promise.Fulfilled hostname => JS.to_string hostname
       | _ => ""
       end
  else "no-lookup".

(** The profile of address [k] built from the rule errors [m] that carry it:
    none when there is no such record. *)
Definition gathered (nsLookup : string) (k : string) (m : list IRuleError.t)
  : option IP.t :=
  match m with
  | [] => None
  | _ :: _ =>
      Some {| IP.brokenRules := m;
              IP.allActivities := [];
              IP.ip := k;
              IP.rejectedRequests := [];
              IP.useragent := "";
              IP.nsLookup := nsLookup |}
  end.

(** The requests of address [k], those of them that were not answered 200,
    and those that name a user agent. *)
Definition is_of (k : string) (n : INormalLog.t) : bool := INormalLog.ip n =? k.

Definition rejected_of (k : string) (n : INormalLog.t) : bool :=
  is_of k n && negb (INormalLog.statusCode n =? "200").

Definition agent_of (k : string) (n : INormalLog.t) : bool :=
  is_of k n && negb (String.length (INormalLog.useragent n) =? 0)%nat.

(** The profile [p] of address [k] once the normal log [normalLogs] has been
    laid over it. *)
Definition overlaid (k : string) (normalLogs : list INormalLog.t) (p : IP.t) : IP.t :=
  {| IP.brokenRules := IP.brokenRules p;
     IP.allActivities := (IP.allActivities p ++ List.filter (is_of k) normalLogs)%list;
     IP.ip := IP.ip p;
     IP.rejectedRequests :=
       (IP.rejectedRequests p ++ List.filter (rejected_of k) normalLogs)%list;
     IP.useragent :=
       if (String.length (IP.useragent p) =? 0)%nat
       then match find (agent_of k) normalLogs with
            | Some n => INormalLog.useragent n
            | None => ""
            end
       else IP.useragent p;
     IP.nsLookup := IP.nsLookup p |}.

End LogFilterSpec.

Module DateSpec.

(** The number of occurrences of a character in a string, and strings free
    of it. *)
Fixpoint count_char (c : ascii) (s : string) : nat :=
  match s with
  | EmptyString => O
  | String d s' => if Ascii.eqb d c then S (count_char c s') else count_char c s'
  end.

Definition free_of (c : ascii) (s : string) : bool := (count_char c s =? 0)%nat.

(** The exception [fixDate] raises. *)
Definition no_replace : JS.exn :=
  JS.TypeError "Cannot read property 'replace' of undefined".

(** The line [getBreakdown] prints for a broken rule. *)
Definition rule_row (Date_parse : string -> EntireLogReviewer.Date)
  (Date_getHours Date_getMinutes : Z -> Z) (ruleError : IRuleError.t) : string :=
  (" [" ++ EntireLogReviewer.hours Date_getHours (Date_parse (IRuleError.date ruleError))
   ++ ":" ++ EntireLogReviewer.minutes Date_getMinutes (Date_parse (IRuleError.date ruleError))
   ++ "]: " ++ IRuleError.data ruleError ++ EntireLogReviewer.LF)%string.

End DateSpec.

(** * More sample inputs *)

Module Cases.
Local Open Scope string_scope.

(** A resolver that names every address. *)
Definition dns_named : NsLookup.resolver :=
  fun _ => NsLookup.mk_answer None (Some ["crawler.example.net"; "alias.example.net"]).

(** A hit of another rule from 2.2.2.2. *)
Definition scanner : IRuleError.t :=
  IRuleError.mk "913100" "Found User-Agent associated with security scanner"
                "example.com" "2.2.2.2" "nikto" "Wed Jan 15 10:20:00 2020".

(** Normal traffic: an accepted request of 1.1.1.1 without user agent, and a
    request of an address that broke no rule. *)
Definition accepted : INormalLog.t :=
  INormalLog.mk "1.1.1.1" "15/Jan/2020:09:59:00 +0000" "200" "GET" "/" "".

Definition bystander : INormalLog.t :=
  INormalLog.mk "9.9.9.9" "15/Jan/2020:10:01:00 +0000" "404" "GET" "/favicon.ico" "Mozilla/5.0".

(** A rejected request whose date has no slash. *)
Definition garbled : INormalLog.t :=
  INormalLog.mk "1.1.1.1" "2020-01-15 10:05:00" "403" "GET" "/login" "curl/7.68.0".

(** Rule errors of two addresses and two rules, and the normal log that goes
    with them. *)
Definition errors_seen : list IRuleError.t :=
  [Sample.sqli_first; scanner; Sample.sqli_again].

Definition requests_seen : list INormalLog.t :=
  [accepted; Sample.forbidden_inside; bystander].

(** What [LogFilter] makes of them with lookups disabled. *)
Definition profiles : JSMap LogFilter.IP.t :=
  Eval vm_compute in
    fst (fold_left (LogFilter.gather Sample.dns_failing NsLookup.start false)
                   errors_seen ([], [])).

Definition inspected : JSMap LogFilter.RuleErrorCollection.t :=
  Eval vm_compute in
    LogFilter.filterErrorLogs errors_seen
      (LogFilter.filterNormalLogs requests_seen profiles).

Definition injection_collection : LogFilter.RuleErrorCollection.t :=
  Eval vm_compute in
    match inspected with
    | (_, c) :: _ => c
    | [] => {| LogFilter.RuleErrorCollection.ruleError := scanner;
               LogFilter.RuleErrorCollection.ips := [] |}
    end.

Definition injection_profile : LogFilter.IP.t :=
  Eval vm_compute in
    match LogFilter.RuleErrorCollection.ips injection_collection with
    | p :: _ => p
    | [] => Sample.profile
    end.

End Cases.

(** * Properties *)

(** ** Strings *)

Lemma append_assoc (a b c : string) : ((a ++ b) ++ c = a ++ (b ++ c))%string.
Proof.
  induction a as [|ch a IH]; simpl; [reflexivity | now rewrite IH].
Qed.

Lemma append_nil_r (a : string) : (a ++ "" = a)%string.
Proof.
  induction a as [|ch a IH]; simpl; [reflexivity | now rewrite IH].
Qed.

(** A [forEach] that appends one piece per element appends their
    concatenation. *)
Lemma fold_left_append {A} (f : A -> string) (l : list A) (init : string) :
  fold_left (fun out x => (out ++ f x)%string) l init
  = (init ++ String.concat "" (map f l))%string.
Proof.
  revert init; induction l as [|x l IH]; intros init; simpl.
  - now rewrite append_nil_r.
  - rewrite IH, append_assoc. f_equal.
    destruct l as [|y l]; simpl; [now rewrite append_nil_r | reflexivity].
Qed.

(** The same when only the elements passing a test append something. *)
Lemma fold_left_append_if {A} (p : A -> bool) (f : A -> string) (l : list A)
  (init : string) :
  fold_left (fun out x => if p x then (out ++ f x)%string else out) l init
  = (init ++ String.concat "" (map f (filter p l)))%string.
Proof.
  revert init; induction l as [|x l IH]; intros init; simpl.
  - now rewrite append_nil_r.
  - rewrite IH. destruct (p x); simpl; [|reflexivity].
    rewrite append_assoc. f_equal.
    destruct (filter p l) as [|y l']; simpl; [now rewrite append_nil_r | reflexivity].
Qed.

(** ** Maps *)

Section JSMapFacts.
Context {V : Type}.
Implicit Types (m : JSMap V) (k : string) (v : V).

Lemma Map_get_In m k v : Map_get m k = Some v -> In (k, v) m.
Proof.
  induction m as [|[k' v'] m IH]; simpl; [discriminate|].
  destruct (String.eqb_spec k' k) as [->|Hne].
  - intros [= ->]. now left.
  - intros H. right. auto.
Qed.

Lemma Map_get_None m k : Map_get m k = None <-> ~ In k (Map_keys m).
Proof.
  induction m as [|[k' v'] m IH]; simpl.
  - tauto.
  - destruct (String.eqb_spec k' k) as [->|Hne].
    + split; [discriminate | intros H; exfalso; apply H; now left].
    + rewrite IH. split; [intros H [E|I]; [congruence | auto] | tauto].
Qed.

Lemma Map_get_Some_key m k v : Map_get m k = Some v -> In k (Map_keys m).
Proof.
  intros H. apply Map_get_In in H. apply (in_map fst) in H. exact H.
Qed.

Lemma In_Map_get m k v :
  NoDup (Map_keys m) -> In (k, v) m -> Map_get m k = Some v.
Proof.
  induction m as [|[k' v'] m IH]; simpl; [tauto|].
  intros Hnd [E|I].
  - injection E as -> ->. now rewrite String.eqb_refl.
  - inversion Hnd as [|? ? Hnot Hnd']; subst.
    destruct (String.eqb_spec k' k) as [->|Hne].
    + exfalso. apply Hnot. change k with (fst (k, v)). now apply in_map.
    + auto.
Qed.

(** [set] on a present key keeps the keys; on an absent key it appends it. *)
Lemma Map_keys_set m k v :
  Map_keys (Map_set m k v)
  = match Map_get m k with
    | Some _ => Map_keys m
    | None => Map_keys m ++ [k]
    end.
Proof.
  induction m as [|[k' v'] m IH]; simpl; [reflexivity|].
  destruct (String.eqb_spec k' k) as [->|Hne]; simpl; [reflexivity|].
  rewrite IH. now destruct (Map_get m k).
Qed.

Lemma Map_set_NoDup m k v : NoDup (Map_keys m) -> NoDup (Map_keys (Map_set m k v)).
Proof.
  intros Hnd. rewrite Map_keys_set.
  destruct (Map_get m k) eqn:E; [exact Hnd|].
  apply Map_get_None in E.
  apply NoDup_rev in Hnd. rewrite <- (rev_involutive (_ ++ _)).
  apply NoDup_rev. rewrite rev_app_distr. simpl. constructor; [|exact Hnd].
  now rewrite <- in_rev.
Qed.

Lemma Map_get_set m k v k' :
  Map_get (Map_set m k v) k' = if k =? k' then Some v else Map_get m k'.
Proof.
  induction m as [|[k0 v0] m IH]; simpl.
  - reflexivity.
  - destruct (String.eqb_spec k0 k) as [->|Hne]; simpl.
    + now destruct (k =? k').
    + rewrite IH. destruct (String.eqb_spec k0 k') as [->|Hne'].
      * destruct (String.eqb_spec k k'); [congruence | reflexivity].
      * reflexivity.
Qed.

(** Every entry of [set m k v] is the new one or an old one. *)
Lemma Map_set_entries m k v e :
  In e (Map_set m k v) -> e = (k, v) \/ In e m.
Proof.
  induction m as [|[k0 v0] m IH]; simpl.
  - intros [E|[]]. now left.
  - destruct (String.eqb_spec k0 k) as [->|Hne]; simpl.
    + intros [E|I]; [now left | right; now right].
    + intros [E|I]; [right; now left|].
      destruct (IH I); [now left | right; now right].
Qed.

Lemma Map_set_length m k v :
  List.length (Map_set m k v)
  = match Map_get m k with
    | Some _ => List.length m
    | None => S (List.length m)
    end.
Proof.
  rewrite <- !(length_map fst). change (map fst ?x) with (Map_keys x).
  rewrite Map_keys_set. destruct (Map_get m k); [reflexivity|].
  rewrite length_app. simpl. lia.
Qed.

End JSMapFacts.

(** ** Order of appearance in a list *)

Section Before.
Context {A : Type}.
Implicit Types (x y z : A) (l : list A).

Lemma before_cons x y z l : before x y l -> before x y (z :: l).
Proof.
  intros (l1 & l2 & l3 & ->). now exists (z :: l1), l2, l3.
Qed.

Lemma before_head x y l : In y l -> before x y (x :: l).
Proof.
  intros H. apply in_split in H as (l2 & l3 & ->). now exists [], l2, l3.
Qed.

Lemma before_cons_inv x y z l :
  before x y (z :: l) -> (z = x /\ In y l) \/ before x y l.
Proof.
  intros (l1 & l2 & l3 & E). destruct l1 as [|a l1]; simpl in E.
  - injection E as -> ->. left. split; [reflexivity|].
    apply in_or_app. right. now left.
  - injection E as -> ->. right. now exists l1, l2, l3.
Qed.

Lemma before_In x y l : before x y l -> In x l /\ In y l.
Proof.
  intros (l1 & l2 & l3 & ->). split.
  - apply in_or_app. right. now left.
  - apply in_or_app. right. right. apply in_or_app. right. now left.
Qed.

Lemma before_app_l x y l l' : before x y l -> before x y (l ++ l').
Proof.
  intros (l1 & l2 & l3 & ->). exists l1, l2, (l3 ++ l').
  rewrite <- app_assoc. simpl. now rewrite <- app_assoc.
Qed.

Lemma before_snoc x y l : In x l -> before x y (l ++ [y]).
Proof.
  intros H. apply in_split in H as (l1 & l2 & ->). exists l1, l2, [].
  rewrite <- app_assoc. reflexivity.
Qed.

Lemma before_snoc_inv x y z l :
  before x y (l ++ [z]) -> before x y l \/ (y = z /\ In x l).
Proof.
  induction l as [|a l IH]; simpl; intros H.
  - destruct H as (l1 & l2 & l3 & E).
    destruct l1 as [|? [|? ?]]; simpl in E; try discriminate.
    injection E as _ E. destruct l2; discriminate.
  - apply before_cons_inv in H as [[-> Hy]|H].
    + apply in_app_or in Hy as [Hy|[->|[]]].
      * left. now apply before_head.
      * right. split; [reflexivity | now left].
    + destruct (IH H) as [H'|[-> H']].
      * left. now apply before_cons.
      * right. split; [reflexivity | now right].
Qed.

Lemma before_rev x y l : before x y (rev l) -> before y x l.
Proof.
  intros (l1 & l2 & l3 & E). exists (rev l3), (rev l2), (rev l1).
  rewrite <- (rev_involutive l), E.
  rewrite rev_app_distr. simpl. rewrite rev_app_distr. simpl.
  repeat (rewrite <- app_assoc; simpl). reflexivity.
Qed.

Lemma before_filter (p : A -> bool) x y l :
  before x y (filter p l) -> before x y l.
Proof.
  induction l as [|a l IH]; simpl; intros H.
  - destruct H as (l1 & l2 & l3 & E). now destruct l1.
  - destruct (p a).
    + apply before_cons_inv in H as [[-> Hy]|H].
      * apply before_head. now apply filter_In in Hy.
      * apply before_cons. auto.
    + apply before_cons. auto.
Qed.

Lemma filter_before (p : A -> bool) x y l :
  before x y l -> p x = true -> p y = true -> before x y (filter p l).
Proof.
  intros (l1 & l2 & l3 & ->) Hx Hy.
  exists (filter p l1), (filter p l2), (filter p l3).
  rewrite filter_app. simpl. rewrite Hx, filter_app. simpl. now rewrite Hy.
Qed.

Lemma before_firstn n x y l : before x y (firstn n l) -> before x y l.
Proof.
  intros H. rewrite <- (firstn_skipn n l). now apply before_app_l.
Qed.

End Before.

Lemma before_map {A B} (f : A -> B) a b l :
  before a b l -> before (f a) (f b) (map f l).
Proof.
  intros (l1 & l2 & l3 & ->). exists (map f l1), (map f l2), (map f l3).
  rewrite map_app. simpl. now rewrite map_app.
Qed.

Lemma before_map_inv {A B} (f : A -> B) x y l :
  before x y (map f l) -> exists a b, f a = x /\ f b = y /\ before a b l.
Proof.
  intros (l1 & l2 & l3 & E).
  apply map_eq_app in E as (m1 & m' & -> & <- & E).
  destruct m' as [|a m']; [discriminate|]. simpl in E. injection E as <- E.
  apply map_eq_app in E as (m2 & m'' & -> & <- & E).
  destruct m'' as [|b m3]; [discriminate|]. simpl in E. injection E as <- <-.
  exists a, b. repeat split. now exists m1, m2, m3.
Qed.

(** ** [Array.prototype.sort] *)

Section SortFacts.
Context {A : Type}.
Variable key : A -> Z.
Variable cmp : A -> A -> Z.

(** The comparator answers "negative" exactly when the first key is smaller. *)
Hypothesis cmp_key : forall a b, (cmp a b <? 0)%Z = (key a <? key b)%Z.

Lemma sort_insert_In x l a : In a (sort_insert cmp x l) <-> a = x \/ In a l.
Proof.
  induction l as [|y l IH]; simpl.
  - intuition.
  - destruct (cmp y x <? 0)%Z; simpl; [rewrite IH|]; intuition.
Qed.

Lemma Array_sort_In l a : In a (Array_sort cmp l) <-> In a l.
Proof.
  induction l as [|x l IH]; simpl; [tauto|].
  rewrite sort_insert_In, IH. intuition.
Qed.

Lemma sort_insert_length x l :
  List.length (sort_insert cmp x l) = S (List.length l).
Proof.
  induction l as [|y l IH]; simpl; [reflexivity|].
  destruct (cmp y x <? 0)%Z; simpl; [now rewrite IH | reflexivity].
Qed.

Lemma Array_sort_length l : List.length (Array_sort cmp l) = List.length l.
Proof.
  induction l as [|x l IH]; simpl; [reflexivity|].
  now rewrite sort_insert_length, IH.
Qed.

Lemma sort_insert_perm x l : Permutation (sort_insert cmp x l) (x :: l).
Proof.
  induction l as [|y l IH]; simpl; [reflexivity|].
  destruct (cmp y x <? 0)%Z; [|reflexivity].
  rewrite IH. apply perm_swap.
Qed.

Lemma Array_sort_perm l : Permutation (Array_sort cmp l) l.
Proof.
  induction l as [|x l IH]; simpl; [reflexivity|].
  rewrite sort_insert_perm. now constructor.
Qed.

Lemma sort_insert_ascending x l : ascending key l -> ascending key (sort_insert cmp x l).
Proof.
  unfold ascending. induction l as [|y l IH]; simpl; intros Hs.
  - constructor; constructor.
  - inversion Hs as [|? ? Hs' Hall]; subst.
    rewrite cmp_key. destruct (Z.ltb_spec (key y) (key x)) as [Hlt|Hge].
    + constructor; [auto|].
      apply Forall_forall. intros a Ha.
      apply sort_insert_In in Ha as [->|Ha]; [lia|].
      rewrite Forall_forall in Hall. auto.
    + constructor; [exact Hs|].
      constructor; [exact Hge|].
      eapply Forall_impl; [|exact Hall]. simpl. intros; lia.
Qed.

Lemma Array_sort_ascending l : ascending key (Array_sort cmp l).
Proof.
  induction l as [|x l IH]; simpl; [constructor | now apply sort_insert_ascending].
Qed.

(** Stability: elements of one key keep their relative order. *)
Lemma sort_insert_stable k x l :
  filter (fun a => (key a =? k)%Z) (sort_insert cmp x l)
  = filter (fun a => (key a =? k)%Z) (x :: l).
Proof.
  induction l as [|y l IH]; [reflexivity|].
  simpl sort_insert. rewrite cmp_key.
  destruct (Z.ltb_spec (key y) (key x)) as [Hlt|Hge]; [|reflexivity].
  simpl in *. rewrite IH.
  destruct (Z.eqb_spec (key x) k), (Z.eqb_spec (key y) k); try reflexivity; lia.
Qed.

Lemma Array_sort_stable k l :
  filter (fun a => (key a =? k)%Z) (Array_sort cmp l)
  = filter (fun a => (key a =? k)%Z) l.
Proof.
  induction l as [|x l IH]; [reflexivity|].
  simpl Array_sort. rewrite sort_insert_stable. simpl. now rewrite IH.
Qed.

Lemma Array_sort_ties x y l :
  key x = key y -> before x y (Array_sort cmp l) -> before x y l.
Proof.
  intros Hk H.
  apply (before_filter (fun a => (key a =? key x)%Z)).
  rewrite <- Array_sort_stable.
  apply filter_before; [exact H | apply Z.eqb_refl | rewrite Hk; apply Z.eqb_refl].
Qed.

Lemma descending_snoc x l :
  descending key l -> Forall (fun a => (key x <= key a)%Z) l -> descending key (l ++ [x]).
Proof.
  unfold descending. induction 1 as [|y l Hs IH Hall]; simpl; intros Hx.
  - constructor; constructor.
  - inversion Hx as [|? ? Hy Hx']; subst. constructor; [auto|].
    apply Forall_app. split; [exact Hall | constructor; [exact Hy | constructor]].
Qed.

Lemma ascending_rev l : ascending key l -> descending key (rev l).
Proof.
  induction 1 as [|x l Hs IH Hall]; simpl.
  - constructor.
  - apply descending_snoc; [exact IH|].
    apply Forall_forall. intros a Ha. apply in_rev in Ha.
    rewrite Forall_forall in Hall. auto.
Qed.

Lemma ascending_filter (p : A -> bool) l : ascending key l -> ascending key (filter p l).
Proof.
  induction 1 as [|x l Hs IH Hall]; simpl; [constructor|].
  destruct (p x); [|exact IH].
  constructor; [exact IH|].
  apply Forall_forall. intros a Ha. apply filter_In in Ha as [Ha _].
  rewrite Forall_forall in Hall. auto.
Qed.

Lemma descending_filter (p : A -> bool) l : descending key l -> descending key (filter p l).
Proof.
  induction 1 as [|x l Hs IH Hall]; simpl; [constructor|].
  destruct (p x); [|exact IH].
  constructor; [exact IH|].
  apply Forall_forall. intros a Ha. apply filter_In in Ha as [Ha _].
  rewrite Forall_forall in Hall. auto.
Qed.

End SortFacts.

(** ** [indexOf] on an array of distinct objects *)

Section IndexOfFacts.
Context {A : Type}.
Variable ident : A -> string.

Let same (x y : A) : bool := (ident x =? ident y)%string.

Lemma indexOf_from_fresh i pre x suf :
  ~ In (ident x) (map ident pre) ->
  indexOf_from same i (pre ++ x :: suf) x = (i + Z.of_nat (List.length pre))%Z.
Proof.
  revert i. induction pre as [|y pre IH]; simpl; intros i Hfresh.
  - unfold same. rewrite String.eqb_refl. lia.
  - unfold same at 1. destruct (String.eqb_spec (ident y) (ident x)) as [E|_].
    + exfalso. apply Hfresh. now left.
    + rewrite IH by tauto. lia.
Qed.

(** The elements whose index is at most [n] are the first [n + 1]. *)
Lemma filter_indexOf_firstn (n : Z) suf : forall pre L,
  L = pre ++ suf ->
  NoDup (map ident L) ->
  filter (fun x => (indexOf same L x <=? n)%Z) suf
  = firstn (Z.to_nat (n + 1 - Z.of_nat (List.length pre))) suf.
Proof.
  induction suf as [|x suf IH]; intros pre L -> Hnd.
  - now rewrite firstn_nil.
  - simpl filter. unfold indexOf at 1.
    rewrite indexOf_from_fresh.
    2:{ rewrite map_app in Hnd. simpl in Hnd.
        apply NoDup_remove_2 in Hnd. intros Hin. apply Hnd.
        apply in_or_app. now left. }
    specialize (IH (pre ++ [x]) (pre ++ x :: suf)).
    rewrite <- app_assoc in IH. specialize (IH eq_refl Hnd).
    rewrite IH, length_app. simpl List.length.
    destruct (Z.leb_spec (0 + Z.of_nat (List.length pre)) n) as [Hle|Hgt].
    + replace (Z.to_nat (n + 1 - Z.of_nat (List.length pre)))
        with (S (Z.to_nat (n + 1 - Z.of_nat (List.length pre + 1)))) by lia.
      reflexivity.
    + replace (Z.to_nat (n + 1 - Z.of_nat (List.length pre))) with O by lia.
      replace (Z.to_nat (n + 1 - Z.of_nat (List.length pre + 1))) with O by lia.
      now rewrite firstn_O.
Qed.

Lemma filter_indexOf_top10 l :
  NoDup (map ident l) ->
  filter (fun x => (indexOf same l x <=? 9)%Z) l = firstn 10 l.
Proof.
  intros Hnd. now rewrite (filter_indexOf_firstn 9 l [] l eq_refl Hnd).
Qed.

End IndexOfFacts.

(** ** Generic facts on loops *)

Lemma fold_left_invariant {S X} (P : S -> Prop) (f : S -> X -> S) (l : list X) :
  (forall s x, P s -> P (f s x)) -> forall s, P s -> P (fold_left f l s).
Proof.
  intros Hstep. induction l as [|x l IH]; simpl; auto.
Qed.

Lemma find_filter {X} (p q : X -> bool) (l : list X) :
  find p (filter q l) = find (fun x => q x && p x) l.
Proof.
  induction l as [|x l IH]; simpl; [reflexivity|].
  destruct (q x); simpl; [now rewrite IH | exact IH].
Qed.

Lemma find_snoc {X} (p : X -> bool) (l : list X) (x : X) :
  find p (l ++ [x])
  = match find p l with
    | Some y => Some y
    | None => if p x then Some x else None
    end.
Proof.
  induction l as [|y l IH]; simpl; [reflexivity|].
  now destruct (p y).
Qed.

Lemma filter_split {X} (p : X -> bool) (l : list X) : forall l1 x l2,
  filter p l = l1 ++ x :: l2 ->
  exists l1' l2', l = l1' ++ x :: l2' /\ filter p l1' = l1 /\ filter p l2' = l2.
Proof.
  induction l as [|a l IH]; simpl; intros l1 x l2 E.
  - now destruct l1.
  - destruct (p a) eqn:Hp.
    + destruct l1 as [|b l1]; simpl in E; injection E as -> E.
      * exists [], l. now rewrite E.
      * destruct (IH _ _ _ E) as (l1' & l2' & -> & <- & <-).
        exists (b :: l1'), l2'. simpl. now rewrite Hp.
    + destruct (IH _ _ _ E) as (l1' & l2' & -> & <- & <-).
      exists (a :: l1'), l2'. simpl. now rewrite Hp.
Qed.

(** ** Keys in order of first appearance *)

Lemma existsb_eqb_In (k : string) (l : list string) :
  existsb (String.eqb k) l = true <-> In k l.
Proof.
  rewrite existsb_exists. split.
  - intros (x & Hx & E). apply String.eqb_eq in E. now subst.
  - intros H. exists k. split; [exact H | apply String.eqb_refl].
Qed.

Lemma note_In seen k a : In a (note seen k) <-> In a seen \/ a = k.
Proof.
  unfold note. destruct (existsb (String.eqb k) seen) eqn:E.
  - apply existsb_eqb_In in E. split; [tauto | intros [H| ->]; assumption].
  - rewrite in_app_iff. simpl. intuition.
Qed.

Lemma noted_In (ks : list string) a : In a (fold_left note ks []) <-> In a ks.
Proof.
  induction ks as [|k ks IH] using rev_ind; simpl; [tauto|].
  rewrite fold_left_app. simpl. rewrite note_In, IH, in_app_iff. simpl. intuition.
Qed.

(** If [a] is noted before [b], some occurrence of [a] comes before every
    occurrence of [b]. *)
Lemma noted_before (ks : list string) a b :
  before a b (fold_left note ks []) ->
  exists k1 k2, ks = k1 ++ a :: k2 /\ ~ In b k1.
Proof.
  induction ks as [|k ks IH] using rev_ind; simpl.
  - intros (l1 & l2 & l3 & E). now destruct l1.
  - rewrite fold_left_app. cbn [fold_left].
    set (seen := fold_left note ks []) in *. unfold note.
    destruct (existsb (String.eqb k) seen) eqn:E; intros H.
    + destruct (IH H) as (k1 & k2 & -> & Hb).
      exists k1, (k2 ++ [k]). split; [now rewrite <- app_assoc | exact Hb].
    + apply before_snoc_inv in H as [H|[-> Ha]].
      * destruct (IH H) as (k1 & k2 & -> & Hb).
        exists k1, (k2 ++ [k]). split; [now rewrite <- app_assoc | exact Hb].
      * subst seen.
        assert (Hk : ~ In k ks).
        { intros Hin. apply (proj2 (noted_In ks k)) in Hin.
          apply (proj2 (existsb_eqb_In _ _)) in Hin. congruence. }
        apply (proj1 (noted_In ks a)) in Ha. apply in_split in Ha as (k1 & k2 & Eks).
        exists k1, (k2 ++ [k]). split.
        -- rewrite Eks, <- app_assoc. reflexivity.
        -- intros Hin. apply Hk. rewrite Eks. apply in_or_app. now left.
Qed.

(** ** Maps whose values carry their key *)

Section KeyedFacts.
Context {V : Type}.
Variable ident : V -> string.

Lemma Map_keys_set_note (m : JSMap V) k v :
  Map_keys (Map_set m k v) = note (Map_keys m) k.
Proof.
  rewrite Map_keys_set. unfold note.
  destruct (Map_get m k) eqn:E.
  - apply Map_get_Some_key, existsb_eqb_In in E. now rewrite E.
  - apply Map_get_None in E.
    destruct (existsb (String.eqb k) (Map_keys m)) eqn:E'; [|reflexivity].
    apply existsb_eqb_In in E'. contradiction.
Qed.

Lemma keyed_nil : keyed ident [].
Proof.
  split; [constructor | intros k v []].
Qed.

Lemma keyed_set (m : JSMap V) k v :
  keyed ident m -> ident v = k -> keyed ident (Map_set m k v).
Proof.
  intros [Hnd Hid] Hv. split.
  - now apply Map_set_NoDup.
  - intros k' v' Hin. apply Map_set_entries in Hin as [E|Hin].
    + now injection E as -> ->.
    + auto.
Qed.

Lemma keyed_get (m : JSMap V) k v : keyed ident m -> Map_get m k = Some v -> ident v = k.
Proof.
  intros [_ Hid] H. apply Hid. now apply Map_get_In.
Qed.

Lemma keyed_values_keys (m : JSMap V) :
  keyed ident m -> map ident (Map_values m) = Map_keys m.
Proof.
  intros [_ Hid]. unfold Map_values, Map_keys. rewrite map_map.
  apply map_ext_in. intros [k v] Hin. simpl. auto.
Qed.

Lemma keyed_values_NoDup (m : JSMap V) :
  keyed ident m -> NoDup (map ident (Map_values m)).
Proof.
  intros H. rewrite keyed_values_keys by exact H. apply H.
Qed.

End KeyedFacts.

(** ** FPFilter: what the groups hold *)

Section FPFilterFacts.
Import FPFilter FPFilterSpec.

Lemma collect_wf g r : wf_group g -> wf_group (OrganizedError.collect g r).
Proof.
  intros [Hip Hdata]. unfold OrganizedError.collect. split; simpl.
  - destruct (Map_get (OrganizedError.ipList g) (IRuleError.ip r)) as [saved|] eqn:E;
      apply keyed_set; try exact Hip; simpl; [|reflexivity].
    eapply keyed_get; eassumption.
  - destruct (Map_get (OrganizedError.dataUsed g) (IRuleError.data r)) as [saved|] eqn:E;
      apply keyed_set; try exact Hdata; simpl; [|reflexivity].
    eapply keyed_get; eassumption.
Qed.

Lemma blank_wf r : wf_group (blank r).
Proof.
  split; apply keyed_nil.
Qed.

Lemma collected_wf l g : wf_group g -> wf_group (fold_left OrganizedError.collect l g).
Proof.
  apply fold_left_invariant. intros s x. apply collect_wf.
Qed.

(** The group found under an id after the constructor's loop: the records of
    that id, collected in input order. *)
Lemma organize_lookup rs : forall (m : JSMap OrganizedError.t) id,
  Map_get (fold_left organize rs m) id
  = match Map_get m id with
    | Some g => Some (fold_left OrganizedError.collect (records_of id rs) g)
    | None => group_of (records_of id rs)
    end.
Proof.
  induction rs as [|r rs IH]; intros m id; simpl.
  - now destruct (Map_get m id).
  - rewrite IH. unfold organize at 1.
    destruct (String.eqb_spec (IRuleError.id r) id) as [E|Hne].
    + subst id. destruct (Map_get m (IRuleError.id r)) as [g|] eqn:Eg;
        rewrite Map_get_set, String.eqb_refl; reflexivity.
    + assert (Hget : forall v, Map_get (Map_set m (IRuleError.id r) v) id = Map_get m id).
      { intros v. rewrite Map_get_set.
        destruct (String.eqb_spec (IRuleError.id r) id); [contradiction | reflexivity]. }
      destruct (Map_get m (IRuleError.id r)); now rewrite Hget.
Qed.

Lemma FPFilter_group rs filtered id g :
  FPFilter.new rs = JS.Return filtered ->
  Map_get (errors filtered) id = Some g ->
  exists r l, records_of id rs = r :: l
              /\ g = fold_left OrganizedError.collect (r :: l) (blank r).
Proof.
  unfold FPFilter.new. destruct (nth_error rs 0); [|discriminate].
  intros [= <-]. simpl. rewrite organize_lookup. simpl.
  unfold group_of. destruct (records_of id rs) as [|r l]; [discriminate|].
  intros [= <-]. now exists r, l.
Qed.

Lemma FPFilter_group_wf rs filtered id g :
  FPFilter.new rs = JS.Return filtered ->
  Map_get (errors filtered) id = Some g ->
  wf_group g.
Proof.
  intros Hnew Hget. destruct (FPFilter_group _ _ _ _ Hnew Hget) as (r & l & _ & ->).
  apply collected_wf, blank_wf.
Qed.

(** Hit counter of a group: one more than the records collected into it. *)
Lemma collected_hits l g :
  OrganizedError.hits (fold_left OrganizedError.collect l g)
  = (OrganizedError.hits g + Z.of_nat (List.length l))%Z.
Proof.
  revert g. induction l as [|r l IH]; intros g; simpl fold_left.
  - simpl. lia.
  - rewrite IH. simpl. lia.
Qed.

(** Key sequences of a group: the addresses and the payloads of its records in
    order of first appearance. *)
Lemma collected_ip_keys l g :
  Map_keys (OrganizedError.ipList (fold_left OrganizedError.collect l g))
  = fold_left note (map IRuleError.ip l) (Map_keys (OrganizedError.ipList g)).
Proof.
  revert g. induction l as [|r l IH]; intros g; [reflexivity|].
  simpl fold_left. rewrite IH. f_equal.
  unfold OrganizedError.collect. simpl.
  destruct (Map_get (OrganizedError.ipList g) (IRuleError.ip r));
    apply Map_keys_set_note.
Qed.

Lemma collected_data_keys l g :
  Map_keys (OrganizedError.dataUsed (fold_left OrganizedError.collect l g))
  = fold_left note (map IRuleError.data l) (Map_keys (OrganizedError.dataUsed g)).
Proof.
  revert g. induction l as [|r l IH]; intros g; [reflexivity|].
  simpl fold_left. rewrite IH. f_equal.
  unfold OrganizedError.collect. simpl.
  destruct (Map_get (OrganizedError.dataUsed g) (IRuleError.data r));
    apply Map_keys_set_note.
Qed.

End FPFilterFacts.

Section FPFilterLaws.
Import FPFilter FPFilterSpec.

(** From the order of the keys of a group to the order of the input. *)
Lemma noted_first_seen (proj : IRuleError.t -> string) id rs a b :
  before a b (fold_left note (map proj (records_of id rs)) []) ->
  first_seen_before
    (fun r => (IRuleError.id r =? id) && (proj r =? a))%string
    (fun r => (IRuleError.id r =? id) && (proj r =? b))%string
    rs.
Proof.
  intros H. apply noted_before in H as (k1 & k2 & E & Hb).
  apply map_eq_app in E as (l1 & l' & E & <- & E').
  destruct l' as [|r0 l2]; [discriminate|]. simpl in E'. injection E' as <- _.
  assert (Hr0 : In r0 (records_of id rs)).
  { rewrite E. apply in_or_app. right. now left. }
  apply filter_In in Hr0 as [_ Hid].
  apply filter_split in E as (l1' & l2' & -> & <- & _).
  exists l1', r0, l2'. split; [reflexivity|]. split.
  - now rewrite Hid, String.eqb_refl.
  - apply forallb_forall. intros r' Hin.
    destruct (IRuleError.id r' =? id)%string eqn:Hid'; [|reflexivity]. simpl.
    destruct (String.eqb_spec (proj r') b) as [Eb|]; [|reflexivity].
    exfalso. apply Hb. rewrite <- Eb. apply in_map.
    apply filter_In. now split.
Qed.

(** The payload table of a group after one more record. *)
Lemma collect_data_get g r k :
  Map_get (OrganizedError.dataUsed (OrganizedError.collect g r)) k
  = if (IRuleError.data r =? k)%string
    then Some match Map_get (OrganizedError.dataUsed g) (IRuleError.data r) with
              | Some saved => Data.collect saved r
              | None => Data.new r
              end
    else Map_get (OrganizedError.dataUsed g) k.
Proof.
  unfold OrganizedError.collect. simpl.
  destruct (Map_get (OrganizedError.dataUsed g) (IRuleError.data r));
    now rewrite Map_get_set.
Qed.

(** [Data.collect] leaves the date as the constructor set it. *)
Lemma Data_collect_keeps_date d r : Data.date (Data.collect d r) = Data.date d.
Proof.
  reflexivity.
Qed.

(** The date held for a payload is the date of the first record carrying it. *)
Lemma collected_data_date l r k :
  match Map_get (OrganizedError.dataUsed (fold_left OrganizedError.collect l (blank r))) k with
  | Some d =>
      exists r0, find (fun x => IRuleError.data x =? k)%string l = Some r0
                 /\ Data.date d = IRuleError.date r0
  | None => find (fun x => IRuleError.data x =? k)%string l = None
  end.
Proof.
  induction l as [|x l IH] using rev_ind; [reflexivity|].
  rewrite fold_left_app. simpl fold_left. rewrite collect_data_get, find_snoc.
  set (g := fold_left OrganizedError.collect l (blank r)) in *.
  destruct (String.eqb_spec (IRuleError.data x) k) as [E|Hne].
  - subst k. destruct (Map_get (OrganizedError.dataUsed g) (IRuleError.data x)) as [saved|].
    + destruct IH as (r0 & -> & Hdate). exists r0. split; [reflexivity | exact Hdate].
    + rewrite IH. exists x. split; reflexivity.
  - destruct (Map_get (OrganizedError.dataUsed g) k) as [d|].
    + destruct IH as (r0 & -> & Hdate). now exists r0.
    + now rewrite IH.
Qed.

(** The stored date of a payload entry never moves past the first occurrence
    of the payload under its rule. *)
Lemma FPFilter_data_date rs filtered id g k d :
  FPFilter.new rs = JS.Return filtered ->
  Map_get (errors filtered) id = Some g ->
  Map_get (OrganizedError.dataUsed g) k = Some d ->
  exists r0, find (has_data id k) rs = Some r0 /\ Data.date d = IRuleError.date r0.
Proof.
  intros Hnew Hg Hd.
  destruct (FPFilter_group _ _ _ _ Hnew Hg) as (r & l & Erec & ->).
  pose proof (collected_data_date (r :: l) r k) as H. rewrite Hd in H.
  destruct H as (r0 & Hfind & Hdate). exists r0. split; [|exact Hdate].
  rewrite <- Erec in Hfind. unfold records_of in Hfind.
  rewrite find_filter in Hfind. exact Hfind.
Qed.

(** Every group counts one hit more than it has records. *)
Lemma FPFilter_group_hits rs filtered id g :
  FPFilter.new rs = JS.Return filtered ->
  Map_get (errors filtered) id = Some g ->
  OrganizedError.hits g = (1 + Z.of_nat (List.length (records_of id rs)))%Z.
Proof.
  intros Hnew Hg.
  destruct (FPFilter_group _ _ _ _ Hnew Hg) as (r & l & -> & ->).
  rewrite collected_hits. reflexivity.
Qed.

Lemma total_hits_set (m : JSMap OrganizedError.t) k v :
  total_hits (Map_set m k v)
  = (total_hits m + OrganizedError.hits v
     - match Map_get m k with
       | Some old => OrganizedError.hits old
       | None => 0
       end)%Z.
Proof.
  induction m as [|[k' v'] m IH]; simpl; [lia|].
  destruct (k' =? k)%string; simpl; [lia | rewrite IH; lia].
Qed.

Lemma organize_total_hits m r :
  (total_hits (organize m r) - Map_size (organize m r)
   = total_hits m - Map_size m + 1)%Z.
Proof.
  unfold organize, Map_size.
  destruct (Map_get m (IRuleError.id r)) as [g|] eqn:E;
    rewrite total_hits_set, Map_set_length, E; simpl; lia.
Qed.

(** The hit counters of all groups add up to the number of records plus the
    number of groups. *)
Lemma FPFilter_total_hits rs (m : JSMap OrganizedError.t) :
  (total_hits (fold_left organize rs m) - Map_size (fold_left organize rs m)
   = total_hits m - Map_size m + Z.of_nat (List.length rs))%Z.
Proof.
  revert m. induction rs as [|r rs IH]; intros m; simpl fold_left.
  - simpl. lia.
  - rewrite IH, organize_total_hits. simpl List.length. lia.
Qed.

End FPFilterLaws.

(** ** FPReviewer: the rows of the breakdown *)

Section FPReviewerFacts.
Import FPFilter FPFilterSpec FPReviewer.

Lemma IP_cmp_key (a b : IP.t) :
  ((IP.hits a - IP.hits b <? 0) = (IP.hits a <? IP.hits b))%Z.
Proof.
  destruct (Z.ltb_spec (IP.hits a) (IP.hits b)); [apply Z.ltb_lt | apply Z.ltb_ge]; lia.
Qed.

Lemma Data_cmp_key (a b : Data.t) :
  (((if Data.hits a <? Data.hits b then -1 else 1) <? 0)
   = (Data.hits a <? Data.hits b))%Z.
Proof.
  now destruct (Data.hits a <? Data.hits b)%Z.
Qed.

Lemma errors_NoDup rs : NoDup (Map_keys (fold_left organize rs [])).
Proof.
  apply fold_left_invariant; [|constructor].
  intros m r Hnd. unfold organize.
  destruct (Map_get m (IRuleError.id r)); now apply Map_set_NoDup.
Qed.

Lemma FPFilter_entry rs filtered id g :
  FPFilter.new rs = JS.Return filtered ->
  In (id, g) (errors filtered) ->
  Map_get (errors filtered) id = Some g.
Proof.
  intros Hnew Hin. apply In_Map_get; [|exact Hin].
  unfold FPFilter.new in Hnew. destruct (nth_error rs 0); [|discriminate].
  injection Hnew as <-. apply errors_NoDup.
Qed.

Lemma sortedIPs_NoDup g : wf_group g -> NoDup (map IP.ip (sortedIPs g)).
Proof.
  intros [Hip _]. unfold sortedIPs. rewrite map_rev. apply NoDup_rev.
  eapply Permutation_NoDup.
  - apply Permutation_map. symmetry. apply Array_sort_perm.
  - now apply keyed_values_NoDup.
Qed.

Lemma sortedData_NoDup g : wf_group g -> NoDup (map Data.data (sortedData g)).
Proof.
  intros [_ Hdata]. unfold sortedData.
  eapply Permutation_NoDup.
  - apply Permutation_map. symmetry. apply Array_sort_perm.
  - now apply keyed_values_NoDup.
Qed.

(** The rows are the first ten entries of the sorted arrays. *)
Lemma renderedIPs_top10 g : wf_group g -> renderedIPs g = firstn 10 (sortedIPs g).
Proof.
  intros Hwf. unfold renderedIPs.
  apply (filter_indexOf_top10 IP.ip). now apply sortedIPs_NoDup.
Qed.

Lemma renderedData_top10 g : wf_group g -> renderedData g = firstn 10 (sortedData g).
Proof.
  intros Hwf. unfold renderedData.
  apply (filter_indexOf_top10 Data.data). now apply sortedData_NoDup.
Qed.

Lemma reviewIP_rows lookups g :
  reviewIP lookups g
  = (ip_header g ++ String.concat "" (map (ip_row lookups) (renderedIPs g)))%string.
Proof.
  unfold reviewIP, renderedIPs. apply fold_left_append_if.
Qed.

Lemma reviewDataSent_rows g :
  reviewDataSent g
  = ((data_header g ++ String.concat "" (map data_row (renderedData g))) ++ LF)%string.
Proof.
  unfold reviewDataSent, renderedData. f_equal. apply fold_left_append_if.
Qed.

Lemma sortedIPs_descending g : descending IP.hits (sortedIPs g).
Proof.
  apply ascending_rev, Array_sort_ascending. intros a b. apply IP_cmp_key.
Qed.

Lemma sortedData_ascending g : ascending Data.hits (sortedData g).
Proof.
  apply Array_sort_ascending. intros a b. apply Data_cmp_key.
Qed.

(** Ties among addresses: the one rendered first was inserted last. *)
Lemma sortedIPs_ties g x y :
  IP.hits x = IP.hits y ->
  before x y (sortedIPs g) ->
  before y x (Map_values (OrganizedError.ipList g)).
Proof.
  intros Hhits H. apply before_rev in H.
  eapply (Array_sort_ties IP.hits); [intros a b; apply IP_cmp_key | | exact H].
  now symmetry.
Qed.

(** Ties among payloads: the one rendered first was inserted first. *)
Lemma sortedData_ties g x y :
  Data.hits x = Data.hits y ->
  before x y (sortedData g) ->
  before x y (Map_values (OrganizedError.dataUsed g)).
Proof.
  intros Hhits H.
  eapply (Array_sort_ties Data.hits); [intros a b; apply Data_cmp_key | | exact H].
  exact Hhits.
Qed.

End FPReviewerFacts.

(** * The claims of the specification *)

Section Claims.
Import FPFilter FPFilterSpec.
Local Open Scope string_scope.

(** C1 (the code departs from it).  The specification's scenario: two records
    of rule 942100 from 1.1.1.1 with the same payload.  The address entry and
    the payload entry both count 2 hits, but the group counts 3: the
    constructor of [OrganizedError] sets [hits] to 1 and then calls [collect],
    which increments it again.  The hit counts of the groups therefore sum to 3
    for 2 input records. *)
Theorem group_hits_counts_first_record_twice :
  exists filtered g ip payload,
    FPFilter.new [Sample.sqli_first; Sample.sqli_again] = JS.Return filtered
    /\ errors filtered = [("942100", g)]
    /\ Map_get (OrganizedError.ipList g) "1.1.1.1" = Some ip
    /\ Map_get (OrganizedError.dataUsed g) "a' OR '1'='1" = Some payload
    /\ IP.hits ip = 2%Z
    /\ Data.hits payload = 2%Z
    /\ OrganizedError.hits g = 3%Z
    /\ total_hits (errors filtered) = 3%Z
    /\ List.length [Sample.sqli_first; Sample.sqli_again] = 2%nat.
Proof.
  do 4 eexists. repeat split; reflexivity.
Qed.

(** C4, as the specification states it, fails: on an empty input the
    constructor does throw, but what it throws is not an EmptyInputError. *)
Lemma empty_input_error_is_not_EmptyInputError :
  ~ exists e, FPFilter.new [] = JS.Throw e /\ JS.exn_name e = "EmptyInputError".
Proof.
  intros (e & Hthrow & Hname). simpl in Hthrow. injection Hthrow as <-.
  discriminate Hname.
Qed.

(** C4 (amended).  Given zero records the aggregation fails with a TypeError,
    the one the engine raises for reading [hostname] of the missing first
    record, and not with an EmptyInputError; given at least one record it does
    not fail, so the empty input is the only one it fails on.  Nothing is
    said of the text of the message, which is the engine's. *)
Theorem empty_input_fails_nonempty_succeeds :
  (exists e, FPFilter.new [] = JS.Throw e /\ JS.exn_name e = "TypeError")
  /\ (forall first rest, exists filtered,
        FPFilter.new (first :: rest) = JS.Return filtered
        /\ hostname filtered = IRuleError.hostname first)
  /\ (forall ruleErrors e,
        FPFilter.new ruleErrors = JS.Throw e ->
        ruleErrors = [] /\ JS.exn_name e = "TypeError").
Proof.
  split; [|split].
  - eexists. split; reflexivity.
  - intros first rest. eexists. split; reflexivity.
  - intros [|first rest] e H; [|discriminate].
    simpl in H. injection H as <-. split; reflexivity.
Qed.

(** C5 (the code departs from it).  Two records of one rule with the same
    payload, the second ten minutes after the first: the payload entry keeps
    the date of the first record, not the later one.  [Data.collect] never
    assigns [date]. *)
Theorem payload_date_stays_at_first_occurrence :
  exists filtered g payload,
    FPFilter.new [Sample.sqli_first; Sample.sqli_again] = JS.Return filtered
    /\ Map_get (errors filtered) "942100" = Some g
    /\ Map_get (OrganizedError.dataUsed g) "a' OR '1'='1" = Some payload
    /\ Data.hits payload = 2%Z
    /\ Data.date payload = IRuleError.date Sample.sqli_first
    /\ Data.date payload <> IRuleError.date Sample.sqli_again
    /\ Sample.clock (IRuleError.date Sample.sqli_first) = Some 36000%Z
    /\ Sample.clock (IRuleError.date Sample.sqli_again) = Some 36600%Z.
Proof.
  do 3 eexists. repeat split; try reflexivity. discriminate.
Qed.

(** C9.  For a non-empty input the host name kept by the filter, and printed
    in the first line of the overview and of the breakdown, is the [hostname]
    field of the first record, whatever the later records carry. *)
Theorem report_hostname_is_first_record
  (String_replace : string -> string -> string -> string)
  (first : IRuleError.t) (rest : list IRuleError.t) :
  exists filtered,
    FPFilter.new (first :: rest) = JS.Return filtered
    /\ hostname filtered = IRuleError.hostname first
    /\ (exists rows,
          FPReviewer.getOverview String_replace filtered
          = "Reviewing ModSec logs for " ++ IRuleError.hostname first ++ FPReviewer.LF
            ++ "IPs" ++ FPReviewer.TAB ++ "Hits" ++ FPReviewer.TAB ++ "Rule  "
            ++ FPReviewer.TAB ++ "Message" ++ FPReviewer.LF ++ rows)
    /\ (forall lookups, exists groups,
          FPReviewer.breakdown_body lookups filtered
          = "Reviewing detailed breakdown for " ++ IRuleError.hostname first
            ++ FPReviewer.LF ++ groups).
Proof.
  eexists. split; [reflexivity|]. split; [reflexivity|]. split.
  - unfold FPReviewer.getOverview. rewrite fold_left_append.
    unfold FPReviewer.overview_header. cbn [hostname].
    eexists. rewrite !append_assoc. reflexivity.
  - intros lookups. unfold FPReviewer.breakdown_body. rewrite fold_left_append.
    unfold FPReviewer.breakdown_header. cbn [hostname].
    eexists. rewrite !append_assoc. reflexivity.
Qed.

(** C7.  For every rule group of the filter, the addresses rendered by
    [reviewIP] are non-increasing in hit count, the payloads rendered by
    [reviewDataSent] are non-decreasing in hit count, and each of the two lists
    has at most 10 rows.  The last two conjuncts tie the rows to the text. *)
Theorem ranking_law (rs : list IRuleError.t) (filtered : FPFilter.t)
  (id : string) (g : OrganizedError.t) :
  FPFilter.new rs = JS.Return filtered ->
  In (id, g) (errors filtered) ->
  descending IP.hits (FPReviewer.renderedIPs g)
  /\ ascending Data.hits (FPReviewer.renderedData g)
  /\ (List.length (FPReviewer.renderedIPs g) <= 10)%nat
  /\ (List.length (FPReviewer.renderedData g) <= 10)%nat
  /\ (forall lookups,
        FPReviewer.reviewIP lookups g
        = FPReviewer.ip_header g
          ++ String.concat "" (map (FPReviewer.ip_row lookups) (FPReviewer.renderedIPs g)))
  /\ FPReviewer.reviewDataSent g
     = (FPReviewer.data_header g
        ++ String.concat "" (map FPReviewer.data_row (FPReviewer.renderedData g)))
       ++ FPReviewer.LF.
Proof.
  intros Hnew Hin.
  pose proof (FPFilter_group_wf _ _ _ _ Hnew (FPFilter_entry _ _ _ _ Hnew Hin)) as Hwf.
  repeat split.
  - apply descending_filter, sortedIPs_descending.
  - apply ascending_filter, sortedData_ascending.
  - rewrite renderedIPs_top10 by exact Hwf. apply firstn_le_length.
  - rewrite renderedData_top10 by exact Hwf. apply firstn_le_length.
  - intros lookups. apply reviewIP_rows.
  - apply reviewDataSent_rows.
Qed.

Lemma ranking_law_witness :
  FPFilter.new [Sample.sqli_first; Sample.sqli_other]
  = JS.Return {| hostname := "example.com"; errors := Sample.two_addresses |}
  /\ In ("942100", Sample.two_addresses_group) Sample.two_addresses
  /\ descending IP.hits (FPReviewer.renderedIPs Sample.two_addresses_group)
  /\ ascending Data.hits (FPReviewer.renderedData Sample.two_addresses_group)
  /\ (List.length (FPReviewer.renderedIPs Sample.two_addresses_group) <= 10)%nat
  /\ (List.length (FPReviewer.renderedData Sample.two_addresses_group) <= 10)%nat.
Proof.
  split; [reflexivity|]. split; [left; reflexivity|].
  destruct (ranking_law [Sample.sqli_first; Sample.sqli_other]
              {| hostname := "example.com"; errors := Sample.two_addresses |}
              "942100" Sample.two_addresses_group eq_refl (or_introl eq_refl))
    as (H1 & H2 & H3 & H4 & _).
  exact (conj H1 (conj H2 (conj H3 H4))).
Defined.

(** C6, as the specification states it, fails for the addresses: with two
    addresses hitting one rule once each, the address seen second in the input
    is rendered first. *)
Lemma equal_hits_later_address_rendered_first :
  exists filtered g x y,
    FPFilter.new [Sample.sqli_first; Sample.sqli_other] = JS.Return filtered
    /\ errors filtered = [("942100", g)]
    /\ FPReviewer.renderedIPs g = [x; y]
    /\ IP.hits x = IP.hits y
    /\ IP.ip x = "2.2.2.2" /\ IP.ip y = "1.1.1.1"
    /\ ~ first_seen_before (has_ip "942100" (IP.ip x)) (has_ip "942100" (IP.ip y))
          [Sample.sqli_first; Sample.sqli_other]
    /\ FPReviewer.reviewIP None g
       = " - IP Addresses (2)" ++ FPReviewer.LF
         ++ FPReviewer.TAB ++ " - 1 - 2.2.2.2        " ++ FPReviewer.TAB
         ++ "[no-lookup]" ++ FPReviewer.LF
         ++ FPReviewer.TAB ++ " - 1 - 1.1.1.1        " ++ FPReviewer.TAB
         ++ "[no-lookup]" ++ FPReviewer.LF.
Proof.
  do 4 eexists. repeat split; try reflexivity.
  intros (l1 & r & l2 & E & Hp & Hq).
  destruct l1 as [|a [|b l1]]; simpl in E.
  - injection E as <- _. discriminate Hp.
  - injection E as <- _ _. discriminate Hq.
  - injection E as _ _ E. now destruct l1.
Qed.

(** C6 (amended).  Within a rule group, of two rendered addresses with equal
    hit counts the one rendered first is the one first seen later in the input
    (the ascending stable sort is reversed); of two rendered payloads with
    equal hit counts the one rendered first is the one first seen earlier. *)
Theorem tie_break_order (rs : list IRuleError.t) (filtered : FPFilter.t)
  (id : string) (g : OrganizedError.t) :
  FPFilter.new rs = JS.Return filtered ->
  In (id, g) (errors filtered) ->
  (forall x y,
     before x y (FPReviewer.renderedIPs g) ->
     IP.hits x = IP.hits y ->
     first_seen_before (has_ip id (IP.ip y)) (has_ip id (IP.ip x)) rs)
  /\ (forall x y,
        before x y (FPReviewer.renderedData g) ->
        Data.hits x = Data.hits y ->
        first_seen_before (has_data id (Data.data x)) (has_data id (Data.data y)) rs).
Proof.
  intros Hnew Hin.
  pose proof (FPFilter_entry _ _ _ _ Hnew Hin) as Hget.
  pose proof (FPFilter_group_wf _ _ _ _ Hnew Hget) as [Hip Hdata].
  destruct (FPFilter_group _ _ _ _ Hnew Hget) as (r & l & Erec & Eg).
  split; intros x y Hbefore Hhits.
  - apply before_filter, (sortedIPs_ties g x y Hhits) in Hbefore.
    apply (before_map IP.ip) in Hbefore.
    rewrite (keyed_values_keys IP.ip _ Hip), Eg, collected_ip_keys, <- Erec in Hbefore.
    exact (noted_first_seen IRuleError.ip id rs _ _ Hbefore).
  - apply before_filter, (sortedData_ties g x y Hhits) in Hbefore.
    apply (before_map Data.data) in Hbefore.
    rewrite (keyed_values_keys Data.data _ Hdata), Eg, collected_data_keys, <- Erec in Hbefore.
    exact (noted_first_seen IRuleError.data id rs _ _ Hbefore).
Qed.

Lemma tie_break_order_witness :
  first_seen_before (has_ip "942100" (IP.ip Sample.first_address))
                    (has_ip "942100" (IP.ip Sample.other_address))
                    [Sample.sqli_first; Sample.sqli_other]
  /\ first_seen_before (has_data "942100" (Data.data Sample.first_payload))
                       (has_data "942100" (Data.data Sample.other_payload))
                       [Sample.sqli_first; Sample.sqli_other].
Proof.
  destruct (tie_break_order [Sample.sqli_first; Sample.sqli_other]
              {| hostname := "example.com"; errors := Sample.two_addresses |}
              "942100" Sample.two_addresses_group eq_refl (or_introl eq_refl))
    as [Hip Hdata].
  split.
  - apply (Hip Sample.other_address Sample.first_address); [|reflexivity].
    exists [], [], []. reflexivity.
  - apply (Hdata Sample.first_payload Sample.other_payload); [|reflexivity].
    exists [], [], []. reflexivity.
Defined.

End Claims.

(** ** Promises and the lookups of [gatherIPs] *)

Section LookupFacts.
Import LogFilter.

Lemma all_fulfilled_In {A} (ps : list (Promise.t A)) l :
  Promise.all_fulfilled ps = Some l ->
  forall p, In p ps -> exists a, p = Promise.Fulfilled a.
Proof.
  revert l. induction ps as [|q ps IH]; simpl; intros l H p Hin; [contradiction|].
  destruct q as [|a|r]; try discriminate.
  destruct (Promise.all_fulfilled ps) as [l'|] eqn:E; [|discriminate].
  destruct Hin as [<-|Hin]; [now exists a | eauto].
Qed.

(** [Promise.all] is fulfilled only if every input is. *)
Lemma all_Fulfilled_In {A} (ps : list (Promise.t A)) l :
  Promise.all ps = Promise.Fulfilled l ->
  forall p, In p ps -> exists a, p = Promise.Fulfilled a.
Proof.
  unfold Promise.all. destruct (Promise.first_rejection ps); [discriminate|].
  destruct (Promise.all_fulfilled ps) as [l'|] eqn:E; [|discriminate].
  intros _. now apply all_fulfilled_In with l'.
Qed.

Lemma resolve_after_unless_fulfilled {A B} (p : Promise.t A) (f : A -> B) :
  (forall a, p <> Promise.Fulfilled a) -> Promise.resolve_after p f = Promise.Pending.
Proof.
  intros H. destruct p as [|a|r]; try reflexivity. now destruct (H a).
Qed.

Variable dns : NsLookup.resolver.
Variable world0 : NsLookup.world.

(** With lookups enabled, every profile of [ips] has its lookup in [lookups]. *)
Let lookups_cover (state : JSMap IP.t * list (Promise.t JS.value)) : Prop :=
  forall k, In k (Map_keys (fst state)) ->
            In (fst (NsLookup.nsLookup dns world0 k)) (snd state).

Lemma gather_cover state r :
  lookups_cover state -> lookups_cover (gather dns world0 true state r).
Proof.
  unfold lookups_cover, gather. intros H k.
  destruct (Map_get (fst state) (IRuleError.ip r)) as [ip|] eqn:E; simpl;
    rewrite Map_keys_set, E.
  - apply H.
  - intros Hin. apply in_app_or in Hin as [Hin|[<-|[]]]; apply in_or_app.
    + left. now apply H.
    + right. now left.
Qed.

Lemma gather_keeps_key state r k :
  In k (Map_keys (fst state)) ->
  In k (Map_keys (fst (gather dns world0 true state r))).
Proof.
  unfold gather. intros H.
  destruct (Map_get (fst state) (IRuleError.ip r)) as [ip|] eqn:E; simpl;
    rewrite Map_keys_set, E; [exact H | apply in_or_app; now left].
Qed.

Lemma gather_adds_key state r :
  In (IRuleError.ip r) (Map_keys (fst (gather dns world0 true state r))).
Proof.
  unfold gather.
  destruct (Map_get (fst state) (IRuleError.ip r)) as [ip|] eqn:E; simpl;
    rewrite Map_keys_set, E.
  - now apply Map_get_Some_key in E.
  - apply in_or_app. right. now left.
Qed.

Lemma gathered_keys rs : forall state r,
  In r rs ->
  In (IRuleError.ip r) (Map_keys (fst (fold_left (gather dns world0 true) rs state))).
Proof.
  induction rs as [|x rs IH]; intros state r Hin; [contradiction|].
  simpl fold_left. destruct Hin as [<-|Hin]; [|now apply IH].
  apply fold_left_invariant; [intros s y; apply gather_keeps_key | apply gather_adds_key].
Qed.

(** Every address of the input has its lookup among those [gatherIPs] waits
    for. *)
Lemma gathered_lookups rs r :
  In r rs ->
  In (fst (NsLookup.nsLookup dns world0 (IRuleError.ip r)))
     (snd (fold_left (gather dns world0 true) rs ([], []))).
Proof.
  intros Hin.
  assert (Hcover : lookups_cover (fold_left (gather dns world0 true) rs ([], []))).
  { apply fold_left_invariant; [intros s x; apply gather_cover | intros k []]. }
  apply Hcover. now apply gathered_keys.
Qed.

End LookupFacts.

Section LookupClaims.

(** C3 (the code departs from it).  When the first attempt for an address
    fails, the cache does record [null] for it, but the next call for the same
    address calls [dns.reverse] once more and fails again: [result !=
    undefined] is false for the recorded [null]. *)
Theorem failed_lookup_is_repeated (dns : NsLookup.resolver) (w : NsLookup.world)
  (ip : string) (r : Promise.reason) :
  fst (NsLookup.nsLookup dns w ip) = Promise.Rejected r ->
  let w1 := snd (NsLookup.nsLookup dns w ip) in
  NsLookup.cached w1 ip = Some JS.Null
  /\ NsLookup.reverse_calls w1 = NsLookup.reverse_calls w ++ [ip]
  /\ fst (NsLookup.nsLookup dns w1 ip) = Promise.Rejected (Promise.Value JS.Null)
  /\ NsLookup.reverse_calls (snd (NsLookup.nsLookup dns w1 ip))
     = (NsLookup.reverse_calls w ++ [ip]) ++ [ip].
Proof.
  unfold NsLookup.nsLookup, NsLookup.cached.
  destruct (JS.neq_undefined
              match Map_get (NsLookup.collected w) ip with
              | Some v => v
              | None => JS.Undefined
              end); [discriminate|].
  destruct (NsLookup.err (dns ip)) as [e|] eqn:Eerr.
  - intros _. simpl. rewrite Map_get_set, String.eqb_refl. simpl.
    repeat split; reflexivity.
  - destruct (NsLookup.hostname (dns ip)); discriminate.
Qed.

Lemma failed_lookup_is_repeated_witness :
  fst (NsLookup.nsLookup Sample.dns_failing NsLookup.start "1.1.1.1")
  = Promise.Rejected (Promise.Value JS.Null)
  /\ NsLookup.reverse_calls
       (snd (NsLookup.nsLookup Sample.dns_failing
               (snd (NsLookup.nsLookup Sample.dns_failing NsLookup.start "1.1.1.1"))
               "1.1.1.1"))
     = ([] ++ ["1.1.1.1"]) ++ ["1.1.1.1"].
Proof.
  split; [reflexivity|].
  exact (proj2 (proj2 (proj2
    (failed_lookup_is_repeated Sample.dns_failing NsLookup.start "1.1.1.1"
       (Promise.Value JS.Null) eq_refl)))).
Defined.

(** C10, as stated, fails: when the callback gets no error and no list of
    names for an address that is not cached, the promise never settles. *)
Lemma lookup_without_error_or_names_stays_pending :
  NsLookup.cached NsLookup.start "1.1.1.1" = None
  /\ NsLookup.err (Sample.dns_silent "1.1.1.1") = None
  /\ NsLookup.hostname (Sample.dns_silent "1.1.1.1") = None
  /\ fst (NsLookup.nsLookup Sample.dns_silent NsLookup.start "1.1.1.1") = Promise.Pending
  /\ Promise.settled (fst (NsLookup.nsLookup Sample.dns_silent NsLookup.start "1.1.1.1"))
     = false.
Proof.
  repeat split; reflexivity.
Qed.

(** C10 (amended).  The promise returned by [nsLookup] settles whenever the
    callback reports an error or is handed a list of names, the empty list
    included.  For an address the cache holds no name for: on an error the
    promise is rejected with [null]; on a non-empty list it is fulfilled with
    the first name of the list; on an empty list it is fulfilled with
    [undefined]. *)
Theorem lookup_settles_on_error_or_names (dns : NsLookup.resolver)
  (w : NsLookup.world) (ip : string) :
  (NsLookup.err (dns ip) <> None \/ NsLookup.hostname (dns ip) <> None ->
   Promise.settled (fst (NsLookup.nsLookup dns w ip)) = true)
  /\ ((forall name, NsLookup.cached w ip <> Some (JS.Str name)) ->
      (forall e, NsLookup.err (dns ip) = Some e ->
         fst (NsLookup.nsLookup dns w ip) = Promise.Rejected (Promise.Value JS.Null))
      /\ (forall name others,
            NsLookup.err (dns ip) = None ->
            NsLookup.hostname (dns ip) = Some (name :: others) ->
            fst (NsLookup.nsLookup dns w ip) = Promise.Fulfilled (JS.Str name))
      /\ (NsLookup.err (dns ip) = None ->
          NsLookup.hostname (dns ip) = Some [] ->
          fst (NsLookup.nsLookup dns w ip) = Promise.Fulfilled JS.Undefined)).
Proof.
  split.
  - unfold NsLookup.nsLookup. intros H.
    destruct (JS.neq_undefined _); [reflexivity|].
    destruct (NsLookup.err (dns ip)); [reflexivity|].
    destruct (NsLookup.hostname (dns ip)); [reflexivity|].
    destruct H as [H|H]; now destruct H.
  - unfold NsLookup.cached, NsLookup.nsLookup. intros Hmiss.
    assert (Hno : JS.neq_undefined
                    match Map_get (NsLookup.collected w) ip with
                    | Some v => v
                    | None => JS.Undefined
                    end = false).
    { destruct (Map_get (NsLookup.collected w) ip) as [[| |name]|]; try reflexivity.
      now destruct (Hmiss name). }
    rewrite Hno. repeat split.
    + intros e He. now rewrite He.
    + intros name others He Hnames. now rewrite He, Hnames.
    + intros He Hnames. now rewrite He, Hnames.
Qed.

Lemma lookup_settles_on_error_or_names_witness :
  Promise.settled (fst (NsLookup.nsLookup Sample.dns_no_names NsLookup.start "1.1.1.1"))
  = true
  /\ fst (NsLookup.nsLookup Sample.dns_failing NsLookup.start "1.1.1.1")
     = Promise.Rejected (Promise.Value JS.Null)
  /\ fst (NsLookup.nsLookup Cases.dns_named NsLookup.start "1.1.1.1")
     = Promise.Fulfilled (JS.Str "crawler.example.net")
  /\ fst (NsLookup.nsLookup Sample.dns_no_names NsLookup.start "1.1.1.1")
     = Promise.Fulfilled JS.Undefined.
Proof.
  assert (Hmiss : forall name, NsLookup.cached NsLookup.start "1.1.1.1"
                               <> Some (JS.Str name)) by discriminate.
  split; [|split; [|split]].
  - apply (proj1 (lookup_settles_on_error_or_names
                    Sample.dns_no_names NsLookup.start "1.1.1.1")).
    right. discriminate.
  - exact (proj1 (proj2 (lookup_settles_on_error_or_names
                           Sample.dns_failing NsLookup.start "1.1.1.1") Hmiss)
                 "ENOTFOUND" eq_refl).
  - exact (proj1 (proj2 (proj2 (lookup_settles_on_error_or_names
                                  Cases.dns_named NsLookup.start "1.1.1.1") Hmiss))
                 "crawler.example.net" ["alias.example.net"] eq_refl eq_refl).
  - exact (proj2 (proj2 (proj2 (lookup_settles_on_error_or_names
                                  Sample.dns_no_names NsLookup.start "1.1.1.1") Hmiss))
                 eq_refl eq_refl).
Defined.

(** C2 (the code departs from it).  With lookups enabled, as soon as the
    lookup of one address of the input is not fulfilled (it is rejected when
    resolution fails), [gatherIPs] never resolves: nothing handles the
    rejection of [Promise.all(lookups)].  Hence neither [LogFilter.filter] nor
    [EntireLogReviewer.getReview] ever delivers a report. *)
Theorem failed_lookup_blocks_the_review
  (Date_parse : string -> EntireLogReviewer.Date)
  (Date_getHours Date_getMinutes : Z -> Z)
  (dns : NsLookup.resolver) (w : NsLookup.world)
  (normalLogs : list INormalLog.t) (ruleErrors : list IRuleError.t)
  (r : IRuleError.t) :
  In r ruleErrors ->
  (forall hostname,
     fst (NsLookup.nsLookup dns w (IRuleError.ip r)) <> Promise.Fulfilled hostname) ->
  LogFilter.filter dns w normalLogs ruleErrors true = Promise.Pending
  /\ EntireLogReviewer.getReview Date_parse Date_getHours Date_getMinutes
       dns w normalLogs ruleErrors true = Promise.Pending.
Proof.
  intros Hin Hfail.
  assert (Hfilter : LogFilter.filter dns w normalLogs ruleErrors true = Promise.Pending).
  { unfold LogFilter.filter.
    apply resolve_after_unless_fulfilled. intros ips.
    unfold LogFilter.gatherIPs.
    rewrite resolve_after_unless_fulfilled; [discriminate|].
    intros l Hall.
    destruct (all_Fulfilled_In _ _ Hall _ (gathered_lookups dns w ruleErrors r Hin))
      as [hostname Hok].
    exact (Hfail hostname Hok). }
  split; [exact Hfilter|].
  unfold EntireLogReviewer.getReview. now rewrite Hfilter.
Qed.

Lemma failed_lookup_blocks_the_review_witness :
  fst (NsLookup.nsLookup Sample.dns_failing NsLookup.start
         (IRuleError.ip Sample.sqli_first))
  = Promise.Rejected (Promise.Value JS.Null)
  /\ LogFilter.filter Sample.dns_failing NsLookup.start
       [Sample.forbidden_inside] [Sample.sqli_first] true = Promise.Pending
  /\ EntireLogReviewer.getReview Sample.clock Sample.clock_hours Sample.clock_minutes
       Sample.dns_failing NsLookup.start
       [Sample.forbidden_inside] [Sample.sqli_first] true = Promise.Pending.
Proof.
  split; [reflexivity|].
  apply (failed_lookup_blocks_the_review Sample.clock Sample.clock_hours
           Sample.clock_minutes Sample.dns_failing NsLookup.start
           [Sample.forbidden_inside] [Sample.sqli_first] Sample.sqli_first).
  - left. reflexivity.
  - intros hostname. discriminate.
Defined.

End LookupClaims.

(** ** EntireLogReviewer: the window of a breakdown *)

Section WindowFacts.
Import LogFilter EntireLogReviewer.
Local Open Scope string_scope.

Variable Date_parse : string -> Date.
Variable Date_getHours : Z -> Z.
Variable Date_getMinutes : Z -> Z.

Let scan_rule := scan_rule Date_parse Date_getHours Date_getMinutes.
Let parsed (r : IRuleError.t) : option Date := Some (Date_parse (IRuleError.date r)).

Lemma concat_cons (a : string) (l : list string) :
  String.concat "" (a :: l) = a ++ String.concat "" l.
Proof.
  destruct l; simpl; [now rewrite append_nil_r | reflexivity].
Qed.

(** After the first loop, [first] and [last] hold the dates of the first and
    of the last record scanned. *)
Lemma scan_first_last (l : list IRuleError.t) : forall s,
  (0 <= i s)%Z ->
  let s' := fold_left scan_rule l s in
  first s' = (if (i s =? 0)%Z
              then match l with
                   | [] => first s
                   | r :: _ => parsed r
                   end
              else first s)
  /\ last s' = match rev l with
               | [] => last s
               | r :: _ => parsed r
               end.
Proof.
  induction l as [|r l IH]; intros s Hi; simpl.
  - split; [now destruct (i s =? 0)%Z | reflexivity].
  - destruct (IH (scan_rule s r)) as [Hfirst Hlast]; [simpl; lia|].
    rewrite Hfirst, Hlast. simpl.
    replace (i s + 1 =? 0)%Z with false by (symmetry; apply Z.eqb_neq; lia).
    split; [reflexivity|].
    destruct (rev l); reflexivity.
Qed.

Lemma scan_rules_first_last (ip : IP.t) (id : string) :
  let matching := List.filter (fun x => IRuleError.id x =? id) (IP.brokenRules ip) in
  let s := scan_rules Date_parse Date_getHours Date_getMinutes ip id in
  first s = option_map (fun r => Date_parse (IRuleError.date r)) (hd_error matching)
  /\ last s = option_map (fun r => Date_parse (IRuleError.date r)) (hd_error (rev matching)).
Proof.
  intros matching s. subst s. unfold scan_rules. fold matching.
  match goal with |- context [fold_left _ matching ?s0] =>
    destruct (scan_first_last matching s0) as [Hfirst Hlast]; [simpl; lia|]
  end.
  fold scan_rule. rewrite Hfirst, Hlast. simpl.
  split; [now destruct matching | now destruct (rev matching)].
Qed.

(** The rows come from the rejected requests whose date parses into the
    window. *)
Lemma rendered_rejects_In s (l : list INormalLog.t) : forall rows date rejected,
  rendered_rejects Date_parse s l = JS.Return rows ->
  In (date, rejected) rows ->
  In rejected l
  /\ fixDate Date_parse (INormalLog.date rejected) = JS.Return date
  /\ in_window s date = true.
Proof.
  induction l as [|x l IH]; simpl; intros rows date rejected Hrows Hin.
  - injection Hrows as <-. contradiction.
  - destruct (fixDate Date_parse (INormalLog.date x)) as [d|e] eqn:Ed; [|discriminate].
    simpl in Hrows.
    destruct (rendered_rejects Date_parse s l) as [rows'|e]; [|discriminate].
    simpl in Hrows. injection Hrows as <-.
    destruct (in_window s d) eqn:Hw.
    + destruct Hin as [E|Hin].
      * injection E as <- <-. auto.
      * destruct (IH _ _ _ eq_refl Hin) as (H1 & H2 & H3). auto.
    + destruct (IH _ _ _ eq_refl Hin) as (H1 & H2 & H3). auto.
Qed.

Lemma in_window_bounds s date :
  in_window s date = true ->
  exists t_first t_last t,
    first s = Some (Some t_first) /\ last s = Some (Some t_last)
    /\ date = Some t /\ (t_first <= t <= t_last)%Z.
Proof.
  unfold in_window, number_le, to_number. intros H.
  apply andb_prop in H as [Hlast Hfirst].
  destruct date as [t|]; [|discriminate].
  destruct (last s) as [[tl|]|]; try discriminate.
  destruct (first s) as [[tf|]|]; try discriminate.
  exists tf, tl, t. repeat split; lia.
Qed.

(** The second loop of [getBreakdown] appends exactly the rows of
    [rendered_rejects]; it throws when [fixDate] does. *)
Lemma reject_loop s (l : list INormalLog.t) : forall acc,
  fold_left
    (fun acc rejected =>
       JS.bind acc (fun rejects =>
       JS.bind (fixDate Date_parse (INormalLog.date rejected)) (fun date =>
       JS.Return (if in_window s date
                  then rejects ++ reject_row Date_getHours Date_getMinutes date rejected
                  else rejects))))
    l acc
  = JS.bind acc (fun rejects =>
    JS.bind (rendered_rejects Date_parse s l) (fun rows =>
    JS.Return
      (rejects
       ++ String.concat ""
            (map (fun row => reject_row Date_getHours Date_getMinutes (fst row) (snd row))
                 rows)))).
Proof.
  induction l as [|x l IH]; intros acc; simpl.
  - destruct acc as [rejects|e]; simpl; [now rewrite append_nil_r | reflexivity].
  - rewrite IH. destruct acc as [rejects|e]; simpl; [|reflexivity].
    destruct (fixDate Date_parse (INormalLog.date x)) as [d|e]; simpl; [|reflexivity].
    destruct (rendered_rejects Date_parse s l) as [rows|e]; simpl; [|reflexivity].
    destruct (in_window s d); [|reflexivity].
    cbn [map fst snd]. now rewrite concat_cons, append_assoc.
Qed.

End WindowFacts.

Section WindowClaims.
Import LogFilter EntireLogReviewer.
Local Open Scope string_scope.

(** C8.  For a profile and a rule id, every rejected request that
    [getBreakdown] renders carries a date that, once normalised by [fixDate],
    lies between the date of the first and the date of the last broken-rule
    record of that rule in the profile, both ends included.  The last conjunct
    ties the rows to the text [getBreakdown] returns. *)
Theorem rejected_requests_within_window
  (Date_parse : string -> Date) (Date_getHours Date_getMinutes : Z -> Z)
  (ip : IP.t) (id : string)
  (rows : list (Date * INormalLog.t)) (date : Date) (rejected : INormalLog.t) :
  let s := scan_rules Date_parse Date_getHours Date_getMinutes ip id in
  rendered_rejects Date_parse s (IP.rejectedRequests ip) = JS.Return rows ->
  In (date, rejected) rows ->
  (exists first_rule last_rule t_first t_last t,
     let matching := List.filter (fun x => IRuleError.id x =? id) (IP.brokenRules ip) in
     hd_error matching = Some first_rule
     /\ hd_error (rev matching) = Some last_rule
     /\ Date_parse (IRuleError.date first_rule) = Some t_first
     /\ Date_parse (IRuleError.date last_rule) = Some t_last
     /\ In rejected (IP.rejectedRequests ip)
     /\ fixDate Date_parse (INormalLog.date rejected) = JS.Return date
     /\ date = Some t
     /\ (t_first <= t <= t_last)%Z)
  /\ getBreakdown Date_parse Date_getHours Date_getMinutes ip id
     = JS.Return
         (top10Data s ++ LF
          ++ (("Rejected requests:" ++ LF ++ ";")
              ++ String.concat ""
                   (map (fun row => reject_row Date_getHours Date_getMinutes
                                               (fst row) (snd row))
                        rows))
          ++ LF).
Proof.
  intros s Hrows Hin. split.
  - destruct (rendered_rejects_In _ _ _ _ _ _ Hrows Hin) as (Hrej & Hfix & Hwin).
    apply in_window_bounds in Hwin as (tf & tl & t & Hfirst & Hlast & -> & Hle).
    destruct (scan_rules_first_last Date_parse Date_getHours Date_getMinutes ip id)
      as [Efirst Elast].
    fold s in Efirst, Elast. rewrite Hfirst in Efirst. rewrite Hlast in Elast.
    destruct (hd_error (List.filter (fun x => IRuleError.id x =? id) (IP.brokenRules ip)))
      as [first_rule|] eqn:E1; [|discriminate].
    destruct (hd_error (rev (List.filter (fun x => IRuleError.id x =? id) (IP.brokenRules ip))))
      as [last_rule|] eqn:E2; [|discriminate].
    simpl in Efirst, Elast. injection Efirst as Efirst. injection Elast as Elast.
    exists first_rule, last_rule, tf, tl, t. cbv zeta.
    rewrite E1, E2. repeat split; auto; lia.
  - unfold getBreakdown. fold s. rewrite reject_loop. simpl. rewrite Hrows. reflexivity.
Qed.

Lemma rejected_requests_within_window_witness :
  rendered_rejects Sample.clock
    (scan_rules Sample.clock Sample.clock_hours Sample.clock_minutes
                Sample.profile "942100")
    (IP.rejectedRequests Sample.profile)
  = JS.Return [(Some 36300%Z, Sample.forbidden_inside)]
  /\ exists first_rule last_rule t_first t_last t,
       hd_error (List.filter (fun x => IRuleError.id x =? "942100")
                             (IP.brokenRules Sample.profile)) = Some first_rule
       /\ hd_error (rev (List.filter (fun x => IRuleError.id x =? "942100")
                                     (IP.brokenRules Sample.profile))) = Some last_rule
       /\ Sample.clock (IRuleError.date first_rule) = Some t_first
       /\ Sample.clock (IRuleError.date last_rule) = Some t_last
       /\ In Sample.forbidden_inside (IP.rejectedRequests Sample.profile)
       /\ fixDate Sample.clock (INormalLog.date Sample.forbidden_inside)
          = JS.Return (Some 36300%Z)
       /\ Some 36300%Z = Some t
       /\ (t_first <= t <= t_last)%Z.
Proof.
  split; [reflexivity|].
  exact (proj1 (rejected_requests_within_window
                  Sample.clock Sample.clock_hours Sample.clock_minutes
                  Sample.profile "942100"
                  [(Some 36300%Z, Sample.forbidden_inside)]
                  (Some 36300%Z) Sample.forbidden_inside
                  eq_refl (or_introl eq_refl))).
Defined.

End WindowClaims.

(** * Further properties of the code *)

(** ** IssueReviewer *)

Section IssueReviewerFacts.
Import IssueReviewer.
Local Open Scope string_scope.

Let non_rule (e : IModSecError.t) : bool := negb (IModSecError.type e =? "rule").
Let names_host (e : IModSecError.t) : bool :=
  (IModSecError.type e =? "rule") && JS.truthy (IModSecError.hostname e).

Lemma truthy_to_string_nonempty (v : JS.value) :
  JS.truthy v = true -> (String.length (JS.to_string v) <=? 0)%nat = false.
Proof.
  destruct v as [| |s]; try discriminate. simpl.
  destruct s; [discriminate | reflexivity].
Qed.

Lemma classified_issues (l : list IModSecError.t) : forall f,
  issues (fold_left classify l f) = (issues f ++ List.filter non_rule l)%list.
Proof.
  induction l as [|e l IH]; intros f; simpl.
  - now rewrite app_nil_r.
  - rewrite IH. unfold classify, non_rule.
    destruct (negb (IModSecError.type e =? "rule")); simpl.
    + now rewrite <- app_assoc.
    + now destruct ((String.length (hostname f) <=? 0)%nat
                    && JS.truthy (IModSecError.hostname e)).
Qed.

Lemma classified_hostname (l : list IModSecError.t) : forall f,
  hostname (fold_left classify l f)
  = if (String.length (hostname f) <=? 0)%nat
    then match find names_host l with
         | Some e => JS.to_string (IModSecError.hostname e)
         | None => hostname f
         end
    else hostname f.
Proof.
  induction l as [|e l IH]; intros f; simpl.
  - now destruct (String.length (hostname f) <=? 0)%nat.
  - rewrite IH. unfold classify, names_host.
    destruct (IModSecError.type e =? "rule"); simpl.
    + destruct (String.length (hostname f) <=? 0)%nat eqn:Hempty; simpl.
      * destruct (JS.truthy (IModSecError.hostname e)) eqn:Ht; simpl.
        -- now rewrite truthy_to_string_nonempty.
        -- now rewrite Hempty.
      * now rewrite Hempty.
    + reflexivity.
Qed.

(** X1.  The issues kept by [IssueReviewer.filter] are exactly the entries
    whose type is not "rule", in their original order. *)
Theorem issues_are_the_non_rule_errors (errors : list IModSecError.t) :
  issues (IssueReviewer.filter errors)
  = List.filter (fun e => negb (IModSecError.type e =? "rule")) errors.
Proof.
  unfold IssueReviewer.filter. now rewrite classified_issues.
Qed.

(** X2.  The host name kept by [IssueReviewer.filter] is the one of the first
    rule error that carries a non-empty host name; it is the empty string when
    no rule error carries one.  Later rule errors never overwrite it. *)
Theorem issue_hostname_is_first_named_rule_error (errors : list IModSecError.t) :
  hostname (IssueReviewer.filter errors)
  = match find (fun e => (IModSecError.type e =? "rule")
                         && JS.truthy (IModSecError.hostname e)) errors with
    | Some e => JS.to_string (IModSecError.hostname e)
    | None => ""
    end.
Proof.
  unfold IssueReviewer.filter. rewrite classified_hostname. reflexivity.
Qed.

(** X3.  The issue report is a header giving the number of non-rule entries
    and the host name, followed by one line per non-rule entry, in input
    order; rule errors contribute no line. *)
Theorem issue_review_lists_non_rule_errors (errors : list IModSecError.t) :
  let kept := List.filter (fun e => negb (IModSecError.type e =? "rule")) errors in
  IssueReviewer.getReview errors
  = (JS.number_to_string (Z.of_nat (List.length kept)) ++ " issues in "
     ++ hostname (IssueReviewer.filter errors) ++ FPReviewer.LF)
    ++ String.concat "" (map issue_row kept).
Proof.
  intros kept. unfold IssueReviewer.getReview.
  rewrite fold_left_append. unfold IssueReviewer.filter.
  rewrite classified_issues. reflexivity.
Qed.

End IssueReviewerFacts.

(** ** nsLookup and its cache *)

Section CacheFacts.

(** X4.  Once a lookup has been fulfilled with a name, every later lookup of
    the same address is fulfilled with that name from the cache: the resolver
    is not consulted and the world is left as it is. *)
Theorem resolved_name_is_served_from_cache (dns dns' : NsLookup.resolver)
  (w : NsLookup.world) (ip name : string) :
  fst (NsLookup.nsLookup dns w ip) = Promise.Fulfilled (JS.Str name) ->
  NsLookup.nsLookup dns' (snd (NsLookup.nsLookup dns w ip)) ip
  = (Promise.Fulfilled (JS.Str name), snd (NsLookup.nsLookup dns w ip)).
Proof.
  unfold NsLookup.nsLookup at 1 3 4.
  destruct (Map_get (NsLookup.collected w) ip) as [v|] eqn:Eget.
  - destruct (JS.neq_undefined v) eqn:Ev.
    + simpl. intros [= ->]. unfold NsLookup.nsLookup. now rewrite Eget.
    + destruct (NsLookup.err (dns ip)); [discriminate|].
      destruct (NsLookup.hostname (dns ip)) as [names|]; [|discriminate].
      simpl. intros [= E]. unfold NsLookup.nsLookup. simpl.
      now rewrite Map_get_set, String.eqb_refl, E.
  - simpl. destruct (NsLookup.err (dns ip)); [discriminate|].
    destruct (NsLookup.hostname (dns ip)) as [names|]; [|discriminate].
    simpl. intros [= E]. unfold NsLookup.nsLookup. simpl.
    now rewrite Map_get_set, String.eqb_refl, E.
Qed.

Lemma resolved_name_is_served_from_cache_witness :
  fst (NsLookup.nsLookup Cases.dns_named NsLookup.start "1.1.1.1")
  = Promise.Fulfilled (JS.Str "crawler.example.net")
  /\ NsLookup.nsLookup Sample.dns_failing
       (snd (NsLookup.nsLookup Cases.dns_named NsLookup.start "1.1.1.1")) "1.1.1.1"
     = (Promise.Fulfilled (JS.Str "crawler.example.net"),
        snd (NsLookup.nsLookup Cases.dns_named NsLookup.start "1.1.1.1")).
Proof.
  split; [reflexivity|].
  exact (resolved_name_is_served_from_cache Cases.dns_named Sample.dns_failing
           NsLookup.start "1.1.1.1" "crawler.example.net" eq_refl).
Defined.

(** X5.  A lookup that succeeds with an empty list of names is fulfilled with
    [undefined] and stores [undefined]; the cache test does not recognise that
    entry, so the next lookup of the address calls the resolver again. *)
Theorem empty_answer_is_looked_up_again (dns dns' : NsLookup.resolver)
  (w : NsLookup.world) (ip : string) :
  NsLookup.cached w ip = None ->
  NsLookup.err (dns ip) = None ->
  NsLookup.hostname (dns ip) = Some [] ->
  let w1 := snd (NsLookup.nsLookup dns w ip) in
  fst (NsLookup.nsLookup dns w ip) = Promise.Fulfilled JS.Undefined
  /\ NsLookup.cached w1 ip = Some JS.Undefined
  /\ NsLookup.reverse_calls (snd (NsLookup.nsLookup dns' w1 ip))
     = (NsLookup.reverse_calls w ++ [ip]) ++ [ip].
Proof.
  unfold NsLookup.cached, NsLookup.nsLookup. intros Hmiss Herr Hnames.
  rewrite Hmiss, Herr, Hnames. simpl.
  rewrite Map_get_set, String.eqb_refl. simpl.
  repeat split.
  destruct (NsLookup.err (dns' ip)); [reflexivity|].
  destruct (NsLookup.hostname (dns' ip)); reflexivity.
Qed.

Lemma empty_answer_is_looked_up_again_witness :
  fst (NsLookup.nsLookup Sample.dns_no_names NsLookup.start "1.1.1.1")
  = Promise.Fulfilled JS.Undefined
  /\ NsLookup.reverse_calls
       (snd (NsLookup.nsLookup Cases.dns_named
               (snd (NsLookup.nsLookup Sample.dns_no_names NsLookup.start "1.1.1.1"))
               "1.1.1.1"))
     = ([] ++ ["1.1.1.1"]) ++ ["1.1.1.1"].
Proof.
  destruct (empty_answer_is_looked_up_again Sample.dns_no_names Cases.dns_named
              NsLookup.start "1.1.1.1" eq_refl eq_refl eq_refl) as (H1 & _ & H3).
  exact (conj H1 H3).
Defined.

(** X6.  A lookup leaves the cache entries of all other addresses as they
    were, and calls the resolver at most once, for the address looked up. *)
Theorem lookup_touches_one_address (dns : NsLookup.resolver)
  (w : NsLookup.world) (ip other : string) :
  other <> ip ->
  let w1 := snd (NsLookup.nsLookup dns w ip) in
  NsLookup.cached w1 other = NsLookup.cached w other
  /\ (NsLookup.reverse_calls w1 = NsLookup.reverse_calls w
      \/ NsLookup.reverse_calls w1 = NsLookup.reverse_calls w ++ [ip]).
Proof.
  intros Hne. unfold NsLookup.cached, NsLookup.nsLookup.
  assert (Hget : forall v, Map_get (Map_set (NsLookup.collected w) ip v) other
                           = Map_get (NsLookup.collected w) other).
  { intros v. rewrite Map_get_set.
    destruct (String.eqb_spec ip other); [congruence | reflexivity]. }
  destruct (JS.neq_undefined _); [simpl; auto|].
  destruct (NsLookup.err (dns ip)); [simpl; auto|].
  destruct (NsLookup.hostname (dns ip)); simpl; auto.
Qed.

Lemma lookup_touches_one_address_witness :
  NsLookup.cached (snd (NsLookup.nsLookup Cases.dns_named NsLookup.start "1.1.1.1"))
                  "2.2.2.2"
  = NsLookup.cached NsLookup.start "2.2.2.2".
Proof.
  refine (proj1 (lookup_touches_one_address Cases.dns_named NsLookup.start
                   "1.1.1.1" "2.2.2.2" _)).
  discriminate.
Defined.

End CacheFacts.

(** ** FPFilter: the entries of a group *)

Section FPFilterEntries.
Import FPFilter FPFilterSpec FPFilterStats.

Lemma filter_filter {X} (p q : X -> bool) (l : list X) :
  filter p (filter q l) = filter (fun x => q x && p x) l.
Proof.
  induction l as [|x l IH]; simpl; [reflexivity|].
  destruct (q x); simpl; [now rewrite IH | exact IH].
Qed.

Lemma collect_ip_get g r k :
  Map_get (OrganizedError.ipList (OrganizedError.collect g r)) k
  = if (IRuleError.ip r =? k)%string
    then Some match Map_get (OrganizedError.ipList g) (IRuleError.ip r) with
              | Some saved => IP.collect saved r
              | None => IP.new r
              end
    else Map_get (OrganizedError.ipList g) k.
Proof.
  unfold OrganizedError.collect. simpl.
  destruct (Map_get (OrganizedError.ipList g) (IRuleError.ip r));
    now rewrite Map_get_set.
Qed.

Lemma ip_entry_snoc k m x :
  IRuleError.ip x = k ->
  ip_entry k (m ++ [x])
  = Some match ip_entry k m with
         | Some saved => IP.collect saved x
         | None => IP.new x
         end.
Proof.
  intros <-. destruct m as [|a m]; [reflexivity|].
  unfold ip_entry, IP.collect. simpl. rewrite !length_app, map_app. simpl.
  do 2 f_equal. lia.
Qed.

Lemma data_entry_snoc k m x :
  IRuleError.data x = k ->
  data_entry k (m ++ [x])
  = Some match data_entry k m with
         | Some saved => Data.collect saved x
         | None => Data.new x
         end.
Proof.
  intros <-. destruct m as [|a m]; [reflexivity|].
  unfold data_entry, Data.collect. simpl. rewrite !length_app, map_app. simpl.
  do 2 f_equal. lia.
Qed.

Lemma collected_ip_entry l r0 k :
  Map_get (OrganizedError.ipList (fold_left OrganizedError.collect l (blank r0))) k
  = ip_entry k (filter (fun x => IRuleError.ip x =? k)%string l).
Proof.
  induction l as [|x l IH] using rev_ind; [reflexivity|].
  rewrite fold_left_app, filter_app. simpl fold_left. rewrite collect_ip_get. simpl.
  destruct (String.eqb_spec (IRuleError.ip x) k) as [E|Hne].
  - rewrite ip_entry_snoc by exact E. subst k. now rewrite IH.
  - now rewrite app_nil_r.
Qed.

Lemma collected_data_entry l r0 k :
  Map_get (OrganizedError.dataUsed (fold_left OrganizedError.collect l (blank r0))) k
  = data_entry k (filter (fun x => IRuleError.data x =? k)%string l).
Proof.
  induction l as [|x l IH] using rev_ind; [reflexivity|].
  rewrite fold_left_app, filter_app. simpl fold_left. rewrite collect_data_get. simpl.
  destruct (String.eqb_spec (IRuleError.data x) k) as [E|Hne].
  - rewrite data_entry_snoc by exact E. subst k. now rewrite IH.
  - now rewrite app_nil_r.
Qed.

(** X7.  In the group of a rule id, an address has an entry exactly when some
    input record of that rule carries it; the entry counts those records and
    lists their payloads in input order. *)
Theorem address_entry_counts_its_records (rs : list IRuleError.t)
  (filtered : FPFilter.t) (id : string) (g : OrganizedError.t) (k : string) :
  FPFilter.new rs = JS.Return filtered ->
  Map_get (errors filtered) id = Some g ->
  Map_get (OrganizedError.ipList g) k = ip_entry k (filter (has_ip id k) rs).
Proof.
  intros Hnew Hg.
  destruct (FPFilter_group _ _ _ _ Hnew Hg) as (r & l & Erec & ->).
  rewrite collected_ip_entry, <- Erec. unfold records_of.
  now rewrite filter_filter.
Qed.

Lemma address_entry_counts_its_records_witness :
  Map_get (OrganizedError.ipList Sample.two_addresses_group) "2.2.2.2"
  = ip_entry "2.2.2.2" (filter (has_ip "942100" "2.2.2.2")
                               [Sample.sqli_first; Sample.sqli_other]).
Proof.
  exact (address_entry_counts_its_records [Sample.sqli_first; Sample.sqli_other]
           {| hostname := "example.com"; errors := Sample.two_addresses |}
           "942100" Sample.two_addresses_group "2.2.2.2" eq_refl eq_refl).
Defined.

(** X8.  In the group of a rule id, a payload has an entry exactly when some
    input record of that rule carries it; the entry counts those records,
    lists their addresses in input order, and holds the date of the first of
    them. *)
Theorem payload_entry_counts_its_records (rs : list IRuleError.t)
  (filtered : FPFilter.t) (id : string) (g : OrganizedError.t) (k : string) :
  FPFilter.new rs = JS.Return filtered ->
  Map_get (errors filtered) id = Some g ->
  Map_get (OrganizedError.dataUsed g) k = data_entry k (filter (has_data id k) rs).
Proof.
  intros Hnew Hg.
  destruct (FPFilter_group _ _ _ _ Hnew Hg) as (r & l & Erec & ->).
  rewrite collected_data_entry, <- Erec. unfold records_of.
  now rewrite filter_filter.
Qed.

Lemma payload_entry_counts_its_records_witness :
  Map_get (OrganizedError.dataUsed Sample.two_addresses_group) "a' OR '1'='1"
  = data_entry "a' OR '1'='1" (filter (has_data "942100" "a' OR '1'='1")
                                      [Sample.sqli_first; Sample.sqli_other]).
Proof.
  exact (payload_entry_counts_its_records [Sample.sqli_first; Sample.sqli_other]
           {| hostname := "example.com"; errors := Sample.two_addresses |}
           "942100" Sample.two_addresses_group "a' OR '1'='1" eq_refl eq_refl).
Defined.

Lemma collected_id_msg l g :
  OrganizedError.id (fold_left OrganizedError.collect l g) = OrganizedError.id g
  /\ OrganizedError.msg (fold_left OrganizedError.collect l g) = OrganizedError.msg g.
Proof.
  apply (fold_left_invariant
           (fun s => OrganizedError.id s = OrganizedError.id g
                     /\ OrganizedError.msg s = OrganizedError.msg g)); auto.
Qed.

(** X9.  The filter holds a group for exactly the rule ids that occur in the
    input.  The group of an id carries that id, the message of the first
    input record of the id, and a hit counter one above the number of input
    records of the id. *)
Theorem group_of_a_rule_id (rs : list IRuleError.t) (filtered : FPFilter.t)
  (id : string) :
  FPFilter.new rs = JS.Return filtered ->
  match Map_get (errors filtered) id with
  | None => records_of id rs = []
  | Some g =>
      exists r l,
        records_of id rs = r :: l
        /\ OrganizedError.id g = id
        /\ OrganizedError.msg g = IRuleError.msg r
        /\ OrganizedError.hits g = (1 + Z.of_nat (List.length (r :: l)))%Z
  end.
Proof.
  intros Hnew.
  destruct (Map_get (errors filtered) id) as [g|] eqn:Hg.
  - destruct (FPFilter_group _ _ _ _ Hnew Hg) as (r & l & Erec & ->).
    exists r, l. split; [exact Erec|].
    destruct (collected_id_msg (r :: l) (blank r)) as [Hid Hmsg].
    rewrite Hid, Hmsg, collected_hits. simpl OrganizedError.id.
    repeat split.
    assert (Hin : In r (records_of id rs)) by (rewrite Erec; now left).
    apply filter_In in Hin as [_ Hin]. now apply String.eqb_eq.
  - unfold FPFilter.new in Hnew. destruct (nth_error rs 0); [|discriminate].
    injection Hnew as <-. simpl in Hg. rewrite organize_lookup in Hg. simpl in Hg.
    unfold group_of in Hg. now destruct (records_of id rs).
Qed.

Lemma group_of_a_rule_id_witness :
  exists r l,
    records_of "942100" [Sample.sqli_first; Sample.sqli_other] = r :: l
    /\ OrganizedError.id Sample.two_addresses_group = "942100"
    /\ OrganizedError.msg Sample.two_addresses_group = IRuleError.msg r
    /\ OrganizedError.hits Sample.two_addresses_group
       = (1 + Z.of_nat (List.length (r :: l)))%Z.
Proof.
  exact (group_of_a_rule_id [Sample.sqli_first; Sample.sqli_other]
           {| hostname := "example.com"; errors := Sample.two_addresses |}
           "942100" eq_refl).
Defined.

Lemma organized_keys rs : forall (m : JSMap OrganizedError.t),
  Map_keys (fold_left organize rs m)
  = fold_left note (map IRuleError.id rs) (Map_keys m).
Proof.
  induction rs as [|r rs IH]; intros m; [reflexivity|].
  simpl fold_left. rewrite IH. f_equal. unfold organize.
  destruct (Map_get m (IRuleError.id r)); apply Map_keys_set_note.
Qed.

(** X10.  The groups of the filter, which the overview and the breakdown list
    in map order, stand in order of first appearance of their rule id in the
    input, each id once. *)
Theorem groups_in_order_of_first_appearance (rs : list IRuleError.t)
  (filtered : FPFilter.t) :
  FPFilter.new rs = JS.Return filtered ->
  NoDup (Map_keys (errors filtered))
  /\ (forall id, In id (Map_keys (errors filtered))
                 <-> exists r, In r rs /\ IRuleError.id r = id)
  /\ (forall a b, before a b (Map_keys (errors filtered)) ->
                  first_seen_before (fun r => IRuleError.id r =? a)%string
                                    (fun r => IRuleError.id r =? b)%string rs).
Proof.
  unfold FPFilter.new. destruct (nth_error rs 0); [|discriminate].
  intros [= <-]. simpl errors. split; [apply errors_NoDup|].
  rewrite organized_keys. simpl Map_keys. split.
  - intros id. rewrite noted_In, in_map_iff.
    split; intros (r & H1 & H2); exists r; auto.
  - intros a b H. apply noted_before in H as (k1 & k2 & E & Hb).
    apply map_eq_app in E as (l1 & l' & -> & <- & E').
    destruct l' as [|r l2]; [discriminate|]. simpl in E'. injection E' as <- _.
    exists l1, r, l2. split; [reflexivity|]. split; [apply String.eqb_refl|].
    apply forallb_forall. intros r' Hin.
    destruct (String.eqb_spec (IRuleError.id r') b) as [Eb|]; [|reflexivity].
    exfalso. apply Hb. rewrite <- Eb. now apply in_map.
Qed.

Lemma groups_in_order_of_first_appearance_witness :
  NoDup (Map_keys (fold_left organize [Sample.sqli_first; Cases.scanner] []))
  /\ first_seen_before (fun r => IRuleError.id r =? "942100")%string
                       (fun r => IRuleError.id r =? "913100")%string
                       [Sample.sqli_first; Cases.scanner].
Proof.
  destruct (groups_in_order_of_first_appearance [Sample.sqli_first; Cases.scanner]
              {| hostname := "example.com";
                 errors := fold_left organize [Sample.sqli_first; Cases.scanner] [] |}
              eq_refl) as (Hnd & _ & Horder).
  split; [exact Hnd|].
  apply Horder. exists [], [], []. reflexivity.
Defined.

End FPFilterEntries.

(** ** FPReviewer: padding, row counts and the lookups of the review *)

Section FPReviewerMore.
Import FPFilter FPFilterSpec FPFilterStats FPReviewer.

Lemma string_length_append (a b : string) :
  String.length (a ++ b)%string = (String.length a + String.length b)%nat.
Proof.
  induction a as [|c a IH]; simpl; [reflexivity | now rewrite IH].
Qed.

Lemma spaces_length n : String.length (JS.spaces n) = n.
Proof.
  induction n as [|n IH]; simpl; [reflexivity | now rewrite IH].
Qed.

Lemma firstn_In {X} n (l : list X) x : In x (firstn n l) -> In x l.
Proof.
  intros H. rewrite <- (firstn_skipn n l). apply in_or_app. now left.
Qed.

(** X11.  [fixWhiteSpace] only ever appends spaces: the text is kept whole,
    even when it is longer than the column, and the result is as long as the
    longer of the text and the column. *)
Theorem fixWhiteSpace_pads_to_the_column (data : string) (column : nat) :
  fixWhiteSpace data column
  = (data ++ JS.spaces (column - String.length data))%string
  /\ String.length (fixWhiteSpace data column) = Nat.max (String.length data) column.
Proof.
  unfold fixWhiteSpace.
  destruct (Nat.ltb_spec (String.length data) column) as [Hlt|Hge].
  - split; [reflexivity|]. rewrite string_length_append, spaces_length. lia.
  - replace (column - String.length data)%nat with O by lia. simpl.
    rewrite append_nil_r. split; [reflexivity | lia].
Qed.

(** X12.  For every rule group the breakdown renders min(10, n) address rows
    and min(10, m) payload rows, where n and m are the numbers of distinct
    addresses and payloads of the group; every row is an entry of the group. *)
Theorem breakdown_row_counts (rs : list IRuleError.t) (filtered : FPFilter.t)
  (id : string) (g : OrganizedError.t) :
  FPFilter.new rs = JS.Return filtered ->
  In (id, g) (errors filtered) ->
  List.length (renderedIPs g) = Nat.min 10 (List.length (OrganizedError.ipList g))
  /\ List.length (renderedData g) = Nat.min 10 (List.length (OrganizedError.dataUsed g))
  /\ (forall x, In x (renderedIPs g) ->
                Map_get (OrganizedError.ipList g) (IP.ip x) = Some x)
  /\ (forall x, In x (renderedData g) ->
                Map_get (OrganizedError.dataUsed g) (Data.data x) = Some x).
Proof.
  intros Hnew Hin.
  pose proof (FPFilter_group_wf _ _ _ _ Hnew (FPFilter_entry _ _ _ _ Hnew Hin)) as Hwf.
  pose proof Hwf as [[Hnd_ip Hid_ip] [Hnd_data Hid_data]].
  rewrite (renderedIPs_top10 g Hwf), (renderedData_top10 g Hwf), !length_firstn.
  unfold sortedIPs, sortedData.
  rewrite length_rev, !Array_sort_length. unfold Map_values. rewrite !length_map.
  repeat split.
  - intros x Hx. apply firstn_In, in_rev, Array_sort_In in Hx.
    apply in_map_iff in Hx as ([k v] & <- & Hx). simpl.
    rewrite (Hid_ip _ _ Hx). now apply In_Map_get.
  - intros x Hx. apply firstn_In, Array_sort_In in Hx.
    apply in_map_iff in Hx as ([k v] & <- & Hx). simpl.
    rewrite (Hid_data _ _ Hx). now apply In_Map_get.
Qed.

Lemma breakdown_row_counts_witness :
  List.length (renderedIPs Sample.two_addresses_group)
  = Nat.min 10 (List.length (OrganizedError.ipList Sample.two_addresses_group))
  /\ List.length (renderedData Sample.two_addresses_group)
     = Nat.min 10 (List.length (OrganizedError.dataUsed Sample.two_addresses_group)).
Proof.
  destruct (breakdown_row_counts [Sample.sqli_first; Sample.sqli_other]
              {| hostname := "example.com"; errors := Sample.two_addresses |}
              "942100" Sample.two_addresses_group eq_refl (or_introl eq_refl))
    as (H1 & H2 & _).
  exact (conj H1 H2).
Defined.

Lemma all_of_fulfilled {A} (ps : list (Promise.t A)) :
  (forall p, In p ps -> exists a, p = Promise.Fulfilled a) ->
  exists l, Promise.all ps = Promise.Fulfilled l.
Proof.
  intros H.
  assert (Hall : exists l, Promise.all_fulfilled ps = Some l
                           /\ Promise.first_rejection ps = None).
  { induction ps as [|p ps IH]; [now exists []|].
    destruct (H p (or_introl eq_refl)) as [a ->].
    destruct IH as (l & Hl & Hr); [intros q Hq; apply H; now right|].
    exists (a :: l). simpl. now rewrite Hl. }
  destruct Hall as (l & Hl & Hr). exists l. unfold Promise.all. now rewrite Hr, Hl.
Qed.

Variable String_replace : string -> string -> string -> string.
Variable dns : NsLookup.resolver.
Variable world0 : NsLookup.world.

(** The addresses [recursiveLookup] looks up are those of the input. *)
Lemma looked_up_addresses rs filtered :
  FPFilter.new rs = JS.Return filtered ->
  forall k,
    (exists g e, In g (Map_values (errors filtered))
                 /\ In e (Map_values (OrganizedError.ipList g)) /\ IP.ip e = k)
    <-> (exists r, In r rs /\ IRuleError.ip r = k).
Proof.
  intros Hnew k. split.
  - intros (g & e & Hg & He & Hk).
    apply in_map_iff in Hg as ([id g'] & Eg & Hg). simpl in Eg. subst g'.
    apply in_map_iff in He as ([k' e'] & Ee & He). simpl in Ee. subst e'.
    pose proof (FPFilter_entry _ _ _ _ Hnew Hg) as Hget.
    pose proof (FPFilter_group_wf _ _ _ _ Hnew Hget) as [[Hnd Hid] _].
    pose proof (Hid _ _ He) as Hk'. rewrite Hk in Hk'. subst k'.
    apply (In_Map_get _ _ _ Hnd) in He.
    destruct (FPFilter_group _ _ _ _ Hnew Hget) as (r0 & l & Erec & ->).
    rewrite collected_ip_entry in He.
    destruct (filter (fun x => (IRuleError.ip x =? k)%string) (r0 :: l))
      as [|r m] eqn:Ef; [discriminate|].
    assert (Hr : In r (filter (fun x => (IRuleError.ip x =? k)%string) (r0 :: l)))
      by (rewrite Ef; now left).
    apply filter_In in Hr as [Hr Hip]. rewrite <- Erec in Hr.
    apply filter_In in Hr as [Hr _].
    exists r. split; [exact Hr | now apply String.eqb_eq].
  - intros (r & Hr & Hk).
    pose proof Hnew as Hnew'. unfold FPFilter.new in Hnew'.
    destruct (nth_error rs 0); [|discriminate]. injection Hnew' as Ef.
    assert (Hrec : In r (records_of (IRuleError.id r) rs)).
    { apply filter_In. split; [exact Hr | apply String.eqb_refl]. }
    assert (Hget : exists g, Map_get (errors filtered) (IRuleError.id r) = Some g).
    { rewrite <- Ef. simpl. rewrite organize_lookup. simpl. unfold group_of.
      destruct (records_of (IRuleError.id r) rs); [contradiction | eauto]. }
    destruct Hget as [g Hget].
    destruct (FPFilter_group _ _ _ _ Hnew Hget) as (r0 & l & Erec & Eg).
    assert (He : exists e, Map_get (OrganizedError.ipList g) k = Some e /\ IP.ip e = k).
    { rewrite Eg, collected_ip_entry, <- Erec.
      destruct (filter (fun x => (IRuleError.ip x =? k)%string)
                       (records_of (IRuleError.id r) rs)) as [|a m] eqn:E.
      - exfalso. assert (Hin : In r []); [|contradiction].
        rewrite <- E. apply filter_In. split; [exact Hrec | now apply String.eqb_eq].
      - eexists. split; reflexivity. }
    destruct He as (e & He & Hke).
    exists g, e. repeat split; [| |exact Hke].
    + apply Map_get_In in Hget. now apply (in_map snd) in Hget.
    + apply Map_get_In in He. now apply (in_map snd) in He.
Qed.

(** X13.  With lookups enabled, the promise of the false-positive review
    settles exactly when the lookup of every address of the input is
    fulfilled: a single rejected or unanswered lookup leaves it pending for
    ever, as in [LogFilter]. *)
Theorem false_positive_review_needs_every_lookup
  (first : IRuleError.t) (rest : list IRuleError.t) :
  exists review,
    FPReviewer.getReview String_replace dns world0 (first :: rest) true
    = JS.Return review
    /\ (Promise.settled review = true
        <-> forall r, In r (first :: rest) ->
              exists hostname,
                fst (NsLookup.nsLookup dns world0 (IRuleError.ip r))
                = Promise.Fulfilled hostname).
Proof.
  set (rs := first :: rest).
  destruct (FPFilter.new rs) as [filtered|e] eqn:Hnew; [|discriminate].
  unfold FPReviewer.getReview. rewrite Hnew. simpl JS.bind.
  eexists. split; [reflexivity|].
  unfold getBreakdown, recursiveLookup.
  set (promises := flat_map _ _).
  assert (Hmem : forall p, In p promises <->
            exists k, (exists r, In r rs /\ IRuleError.ip r = k)
                      /\ p = Promise.resolve_after
                               (fst (NsLookup.nsLookup dns world0 k))
                               (fun result => (k, result))).
  { intros p. unfold promises. rewrite in_flat_map. split.
    - intros (g & Hg & Hp). apply in_map_iff in Hp as (e & <- & He).
      exists (IP.ip e). split; [|reflexivity].
      apply (looked_up_addresses rs filtered Hnew). now exists g, e.
    - intros (k & Hk & ->).
      apply (looked_up_addresses rs filtered Hnew) in Hk as (g & e & Hg & He & <-).
      exists g. split; [exact Hg|]. apply in_map_iff. now exists e. }
  split.
  - intros Hsettled r Hr.
    destruct (Promise.all promises) as [|lookups|reason] eqn:Hall; try discriminate.
    destruct (all_Fulfilled_In _ _ Hall
                (Promise.resolve_after
                   (fst (NsLookup.nsLookup dns world0 (IRuleError.ip r)))
                   (fun result => (IRuleError.ip r, result)))) as [a Ha].
    { apply Hmem. exists (IRuleError.ip r). split; [now exists r | reflexivity]. }
    destruct (fst (NsLookup.nsLookup dns world0 (IRuleError.ip r))) as [|h|];
      try discriminate. now exists h.
  - intros Hok.
    destruct (all_of_fulfilled promises) as [lookups ->]; [|reflexivity].
    intros p Hp. apply Hmem in Hp as (k & (r & Hr & <-) & ->).
    destruct (Hok r Hr) as [h ->]. simpl. eauto.
Qed.

End FPReviewerMore.

(** ** LogFilter: the profiles *)

Section ProfileFacts.
Import LogFilter LogFilterSpec.

Variable dns : NsLookup.resolver.
Variable world0 : NsLookup.world.

Lemma gather_get doNSLookup state r k :
  Map_get (fst (gather dns world0 doNSLookup state r)) k
  = if (IRuleError.ip r =? k)%string
    then match Map_get (fst state) (IRuleError.ip r) with
         | Some p =>
             Some {| IP.brokenRules := IP.brokenRules p ++ [r];
                     IP.allActivities := IP.allActivities p;
                     IP.ip := IP.ip p;
                     IP.rejectedRequests := IP.rejectedRequests p;
                     IP.useragent := IP.useragent p;
                     IP.nsLookup := IP.nsLookup p |}
         | None =>
             gathered (lookup_text dns world0 doNSLookup (IRuleError.ip r))
                      (IRuleError.ip r) [r]
         end
    else Map_get (fst state) k.
Proof.
  unfold gather.
  destruct (Map_get (fst state) (IRuleError.ip r)) as [p|] eqn:E.
  - simpl. now rewrite Map_get_set.
  - destruct doNSLookup; simpl; rewrite Map_get_set;
      destruct (IRuleError.ip r =? k)%string; reflexivity.
Qed.

Lemma gathered_get doNSLookup rs k :
  Map_get (fst (fold_left (gather dns world0 doNSLookup) rs ([], []))) k
  = gathered (lookup_text dns world0 doNSLookup k) k
             (List.filter (fun r => IRuleError.ip r =? k)%string rs).
Proof.
  induction rs as [|r rs IH] using rev_ind; [reflexivity|].
  rewrite fold_left_app, filter_app. simpl fold_left. rewrite gather_get. simpl.
  destruct (String.eqb_spec (IRuleError.ip r) k) as [E|Hne].
  - subst k. rewrite IH.
    destruct (List.filter (fun x => IRuleError.ip x =? IRuleError.ip r)%string rs);
      reflexivity.
  - now rewrite app_nil_r.
Qed.

Lemma gathered_without_lookups rs :
  snd (fold_left (gather dns world0 false) rs ([], [])) = [].
Proof.
  apply fold_left_invariant; [|reflexivity].
  intros state r H. unfold gather.
  now destruct (Map_get (fst state) (IRuleError.ip r)).
Qed.

(** X14.  When [gatherIPs] resolves, an address has a profile exactly when
    some rule error carries it; the profile holds all the rule errors of the
    address, of whatever rule, in input order, an empty history, and in
    [nsLookup] the looked-up name as text ("no-lookup" when lookups are off,
    "undefined" when the resolver named nothing). *)
Theorem profile_holds_rule_errors_of_address (rs : list IRuleError.t)
  (doNSLookup : bool) (ips : JSMap IP.t) (k : string) :
  gatherIPs dns world0 rs doNSLookup = Promise.Fulfilled ips ->
  Map_get ips k
  = gathered (lookup_text dns world0 doNSLookup k) k
             (List.filter (fun r => IRuleError.ip r =? k)%string rs).
Proof.
  unfold gatherIPs.
  destruct (Promise.all _); try discriminate.
  simpl. intros [= <-]. apply gathered_get.
Qed.

(** X15.  With lookups disabled [gatherIPs] always resolves, whatever the
    resolver and the cache are, and every profile carries "no-lookup". *)
Theorem disabled_lookups_always_resolve (rs : list IRuleError.t) :
  exists ips,
    gatherIPs dns world0 rs false = Promise.Fulfilled ips
    /\ (forall dns' world', gatherIPs dns' world' rs false = Promise.Fulfilled ips)
    /\ (forall k p, Map_get ips k = Some p -> IP.nsLookup p = "no-lookup"%string).
Proof.
  assert (Hany : forall d w,
            gatherIPs d w rs false
            = Promise.Fulfilled (fst (fold_left (gather dns world0 false) rs ([], [])))).
  { intros d w. unfold gatherIPs.
    assert (E : fold_left (gather d w false) rs ([], [])
                = fold_left (gather dns world0 false) rs ([], [])).
    { reflexivity. }
    rewrite E, gathered_without_lookups. reflexivity. }
  eexists. split; [apply Hany|]. split; [intros; apply Hany|].
  intros k p. rewrite gathered_get.
  destruct (List.filter _ rs); [discriminate|]. now intros [= <-].
Qed.

End ProfileFacts.

Section ProfileLookups.
Import LogFilter LogFilterSpec.

Variable dns : NsLookup.resolver.
Variable world0 : NsLookup.world.

Lemma gathered_lookups_inv rs : forall state p,
  In p (snd (fold_left (gather dns world0 true) rs state)) ->
  In p (snd state)
  \/ exists r, In r rs /\ p = fst (NsLookup.nsLookup dns world0 (IRuleError.ip r)).
Proof.
  induction rs as [|r rs IH]; intros state p Hp; [now left|].
  simpl in Hp. apply IH in Hp as [Hp|(r' & Hr' & ->)].
  - unfold gather in Hp.
    destruct (Map_get (fst state) (IRuleError.ip r)); simpl in Hp; [now left|].
    apply in_app_or in Hp as [Hp|[<-|[]]]; [now left|].
    right. exists r. split; [now left | reflexivity].
  - right. exists r'. split; [now right | reflexivity].
Qed.

(** X16.  With lookups enabled, [LogFilter.filter] resolves exactly when the
    lookup of every address of the rule errors is fulfilled; the normal log
    plays no part in it. *)
Theorem filter_resolves_iff_every_lookup_fulfilled
  (normalLogs : list INormalLog.t) (ruleErrors : list IRuleError.t) :
  Promise.settled (LogFilter.filter dns world0 normalLogs ruleErrors true) = true
  <-> forall r, In r ruleErrors ->
        exists hostname,
          fst (NsLookup.nsLookup dns world0 (IRuleError.ip r))
          = Promise.Fulfilled hostname.
Proof.
  unfold LogFilter.filter, gatherIPs. split.
  - intros Hsettled r Hr.
    destruct (Promise.all (snd (fold_left (gather dns world0 true) ruleErrors ([], []))))
      as [|l|reason] eqn:Hall; try discriminate.
    exact (all_Fulfilled_In _ _ Hall _ (gathered_lookups dns world0 ruleErrors r Hr)).
  - intros Hok.
    destruct (all_of_fulfilled
                (snd (fold_left (gather dns world0 true) ruleErrors ([], []))))
      as [l ->]; [|reflexivity].
    intros p Hp. apply gathered_lookups_inv in Hp as [[]|(r & Hr & ->)].
    now apply Hok.
Qed.

(** One normal-log record laid over the profiles. *)
Lemma overlay_get (ips : JSMap IP.t) (n : INormalLog.t) (k : string) :
  Map_get (overlay ips n) k
  = if is_of k n then option_map (overlaid k [n]) (Map_get ips k) else Map_get ips k.
Proof.
  unfold overlay, is_of.
  destruct (String.eqb_spec (INormalLog.ip n) k) as [E|Hne].
  - subst k. destruct (Map_get ips (INormalLog.ip n)) as [p|] eqn:Ep.
    + rewrite Map_get_set, String.eqb_refl. simpl. f_equal.
      unfold overlaid, rejected_of, agent_of, is_of. simpl.
      rewrite String.eqb_refl. simpl.
      destruct (negb (INormalLog.statusCode n =? "200")%string);
        destruct (String.length (IP.useragent p) =? 0)%nat eqn:Hp;
        destruct (String.length (INormalLog.useragent n) =? 0)%nat eqn:Hn;
        simpl; rewrite ?app_nil_r; try reflexivity;
        f_equal; apply Nat.eqb_eq in Hn;
        destruct (INormalLog.useragent n); try reflexivity; discriminate.
    + now rewrite Ep.
  - destruct (Map_get ips (INormalLog.ip n)) as [p|]; [|reflexivity].
    rewrite Map_get_set.
    destruct (String.eqb_spec (INormalLog.ip n) k); [contradiction | reflexivity].
Qed.

Lemma overlaid_cons k n l p :
  overlaid k (n :: l) p = overlaid k l (if is_of k n then overlaid k [n] p else p).
Proof.
  unfold overlaid, rejected_of, agent_of. simpl.
  destruct (is_of k n); simpl; [|reflexivity].
  destruct (negb (INormalLog.statusCode n =? "200")%string);
    destruct (String.length (IP.useragent p) =? 0)%nat eqn:Hp;
    destruct (String.length (INormalLog.useragent n) =? 0)%nat eqn:Hn;
    simpl; rewrite ?Hp, ?Hn, ?app_nil_r, <- ?app_assoc; simpl; try reflexivity.
Qed.

Lemma overlay_keys (ips : JSMap IP.t) (n : INormalLog.t) :
  Map_keys (overlay ips n) = Map_keys ips.
Proof.
  unfold overlay. destruct (Map_get ips (INormalLog.ip n)) eqn:E; [|reflexivity].
  now rewrite Map_keys_set, E.
Qed.

Lemma filterNormalLogs_keys (normalLogs : list INormalLog.t) : forall ips,
  Map_keys (filterNormalLogs normalLogs ips) = Map_keys ips.
Proof.
  unfold filterNormalLogs.
  induction normalLogs as [|n l IH]; intros ips; simpl; [reflexivity|].
  now rewrite IH, overlay_keys.
Qed.

Lemma overlaid_nil k p : overlaid k [] p = p.
Proof.
  unfold overlaid. simpl. rewrite !app_nil_r.
  destruct p as [b a i r u ns]. simpl. f_equal.
  destruct (String.length u =? 0)%nat eqn:Hu; [|reflexivity].
  apply Nat.eqb_eq in Hu. now destruct u.
Qed.

Lemma filterNormalLogs_get (normalLogs : list INormalLog.t) : forall ips k,
  Map_get (filterNormalLogs normalLogs ips) k
  = option_map (overlaid k normalLogs) (Map_get ips k).
Proof.
  unfold filterNormalLogs.
  induction normalLogs as [|n l IH]; intros ips k; simpl.
  - destruct (Map_get ips k) as [p|]; [|reflexivity]. simpl. now rewrite overlaid_nil.
  - rewrite IH, overlay_get.
    destruct (Map_get ips k) as [p|]; cbn [option_map].
    + rewrite (overlaid_cons k n l p). now destruct (is_of k n).
    + now destruct (is_of k n).
Qed.

(** X17.  [filterNormalLogs] creates no profile and drops none: requests of
    addresses without a profile are ignored.  To the profile of an address it
    appends all the requests of that address to [allActivities], those not
    answered 200 to [rejectedRequests], both in input order, and it fills an
    empty [useragent] with the first non-empty user agent of those requests;
    the rule errors, the address and the lookup result stay as they were. *)
Theorem normal_logs_overlay_profiles (normalLogs : list INormalLog.t)
  (ips : JSMap IP.t) (k : string) :
  Map_keys (filterNormalLogs normalLogs ips) = Map_keys ips
  /\ match Map_get ips k with
     | None => Map_get (filterNormalLogs normalLogs ips) k = None
     | Some p =>
         exists p',
           Map_get (filterNormalLogs normalLogs ips) k = Some p'
           /\ IP.brokenRules p' = IP.brokenRules p
           /\ IP.ip p' = IP.ip p
           /\ IP.nsLookup p' = IP.nsLookup p
           /\ IP.allActivities p'
              = IP.allActivities p ++ List.filter (is_of k) normalLogs
           /\ IP.rejectedRequests p'
              = IP.rejectedRequests p ++ List.filter (rejected_of k) normalLogs
           /\ IP.useragent p'
              = if (String.length (IP.useragent p) =? 0)%nat
                then match find (agent_of k) normalLogs with
                     | Some n => INormalLog.useragent n
                     | None => ""%string
                     end
                else IP.useragent p
     end.
Proof.
  split; [apply filterNormalLogs_keys|].
  rewrite filterNormalLogs_get.
  destruct (Map_get ips k) as [p|]; [|reflexivity].
  exists (overlaid k normalLogs p). repeat split.
Qed.

End ProfileLookups.

(** ** LogFilter: regrouping by rule *)

Section RegroupFacts.
Import LogFilter LogFilterSpec.

Variable ips : JSMap IP.t.

(** Every record at hand has a profile under its address. *)
Let profiled (r : IRuleError.t) : Prop :=
  exists p, Map_get ips (IRuleError.ip r) = Some p /\ IP.ip p = IRuleError.ip r.

(** What [regroup] does to the collection of the rule of [r]. *)
Let add (c : RuleErrorCollection.t) (r : IRuleError.t) : RuleErrorCollection.t :=
  match Map_get ips (IRuleError.ip r) with
  | Some p =>
      match Array_find (fun x => IP.ip x =? IP.ip p)%string (RuleErrorCollection.ips c) with
      | None =>
          {| RuleErrorCollection.ruleError := RuleErrorCollection.ruleError c;
             RuleErrorCollection.ips := RuleErrorCollection.ips c ++ [p] |}
      | Some _ => c
      end
  | None => c
  end.

Let start (r : IRuleError.t) : option RuleErrorCollection.t :=
  match Map_get ips (IRuleError.ip r) with
  | Some p => Some {| RuleErrorCollection.ruleError := r; RuleErrorCollection.ips := [p] |}
  | None => None
  end.

Lemma add_known c r p :
  Map_get ips (IRuleError.ip r) = Some p ->
  add c r
  = match Array_find (fun x => IP.ip x =? IP.ip p)%string (RuleErrorCollection.ips c) with
    | None =>
        {| RuleErrorCollection.ruleError := RuleErrorCollection.ruleError c;
           RuleErrorCollection.ips := RuleErrorCollection.ips c ++ [p] |}
    | Some _ => c
    end.
Proof.
  intros Hp. unfold add. now rewrite Hp.
Qed.

Lemma records_of_cons id r rs :
  FPFilterSpec.records_of id (r :: rs)
  = if (IRuleError.id r =? id)%string
    then r :: FPFilterSpec.records_of id rs
    else FPFilterSpec.records_of id rs.
Proof.
  reflexivity.
Qed.

Lemma regroup_lookup rs : forall (m : JSMap RuleErrorCollection.t) id,
  (forall r, In r rs -> profiled r) ->
  Map_get (fold_left (regroup ips) rs m) id
  = match Map_get m id with
    | Some c => Some (fold_left add (FPFilterSpec.records_of id rs) c)
    | None =>
        match FPFilterSpec.records_of id rs with
        | [] => None
        | r0 :: l => option_map (fold_left add l) (start r0)
        end
    end.
Proof.
  induction rs as [|r rs IH]; intros m id Hall.
  - simpl. now destruct (Map_get m id).
  - simpl fold_left. rewrite IH by (intros x Hx; apply Hall; now right).
    destruct (Hall r (or_introl eq_refl)) as (p & Hp & Hip).
    rewrite records_of_cons.
    unfold regroup at 1. rewrite Hp.
    destruct (String.eqb_spec (IRuleError.id r) id) as [E|Hne].
    + subst id. destruct (Map_get m (IRuleError.id r)) as [c|] eqn:Ec.
      * simpl fold_left. rewrite (add_known c r p Hp).
        destruct (Array_find _ (RuleErrorCollection.ips c)).
        -- now rewrite Ec.
        -- now rewrite Map_get_set, String.eqb_refl.
      * rewrite Map_get_set, String.eqb_refl. unfold start. now rewrite Hp.
    + assert (Hget : forall v, Map_get (Map_set m (IRuleError.id r) v) id = Map_get m id).
      { intros v. rewrite Map_get_set.
        destruct (String.eqb_spec (IRuleError.id r) id); [contradiction | reflexivity]. }
      destruct (Map_get m (IRuleError.id r)) as [c|].
      * destruct (Array_find _ (RuleErrorCollection.ips c)); [reflexivity|].
        now rewrite Hget.
      * now rewrite Hget.
Qed.

(** The profiles of a collection are the ones found under their address. *)
Let faithful (c : RuleErrorCollection.t) : Prop :=
  NoDup (map IP.ip (RuleErrorCollection.ips c))
  /\ forall x, In x (RuleErrorCollection.ips c) -> Map_get ips (IP.ip x) = Some x.

Lemma NoDup_snoc {X} (l : list X) (x : X) : NoDup l -> ~ In x l -> NoDup (l ++ [x]).
Proof.
  intros Hnd Hx. apply NoDup_rev in Hnd. rewrite <- (rev_involutive (l ++ [x])).
  apply NoDup_rev. rewrite rev_app_distr. simpl. constructor; [|exact Hnd].
  now rewrite <- in_rev.
Qed.

Lemma add_spec c r p :
  Map_get ips (IRuleError.ip r) = Some p ->
  IP.ip p = IRuleError.ip r ->
  faithful c ->
  faithful (add c r)
  /\ RuleErrorCollection.ruleError (add c r) = RuleErrorCollection.ruleError c
  /\ forall x, In x (RuleErrorCollection.ips (add c r))
               <-> In x (RuleErrorCollection.ips c) \/ x = p.
Proof.
  intros Hp Hip [Hnd Hfaith]. unfold add. rewrite Hp.
  destruct (Array_find _ (RuleErrorCollection.ips c)) as [x|] eqn:Efind.
  - apply find_some in Efind as [Hx Heq]. apply String.eqb_eq in Heq.
    assert (x = p).
    { pose proof (Hfaith x Hx) as Hgx. rewrite Heq, Hip, Hp in Hgx. congruence. }
    subst x. split; [now split|]. split; [reflexivity|].
    intros y. split; [now left | intros [Hy| ->]; assumption].
  - assert (Hfresh : ~ In (IP.ip p) (map IP.ip (RuleErrorCollection.ips c))).
    { intros Hin. apply in_map_iff in Hin as (x & Ex & Hx).
      pose proof (find_none _ _ Efind x Hx) as Hne. simpl in Hne.
      rewrite Ex, String.eqb_refl in Hne. discriminate. }
    repeat split; simpl.
    + rewrite map_app. simpl. now apply NoDup_snoc.
    + intros x Hx. apply in_app_or in Hx as [Hx|[<-|[]]]; [auto|].
      now rewrite Hip.
    + intros Hx. apply in_app_or in Hx as [Hx|[<-|[]]]; auto.
    + intros [Hx| ->]; apply in_or_app; [now left | right; now left].
Qed.

Lemma added_spec l : forall c,
  (forall r, In r l -> profiled r) ->
  faithful c ->
  faithful (fold_left add l c)
  /\ RuleErrorCollection.ruleError (fold_left add l c) = RuleErrorCollection.ruleError c
  /\ forall x, In x (RuleErrorCollection.ips (fold_left add l c))
               <-> In x (RuleErrorCollection.ips c)
                   \/ exists r, In r l /\ Map_get ips (IRuleError.ip r) = Some x.
Proof.
  induction l as [|r l IH]; intros c Hall Hc; simpl fold_left.
  - split; [exact Hc|]. split; [reflexivity|].
    intros x. split; [now left | intros [H|(r & [] & _)]; exact H].
  - destruct (Hall r (or_introl eq_refl)) as (p & Hp & Hip).
    destruct (add_spec c r p Hp Hip Hc) as (Hc' & Hrule & Hmem).
    destruct (IH (add c r) (fun x Hx => Hall x (or_intror Hx)) Hc')
      as (Hfinal & Hrule' & Hmem').
    split; [exact Hfinal|]. split; [now rewrite Hrule', Hrule|].
    intros x. rewrite Hmem', Hmem. split.
    + intros [[Hx| ->]|(r' & Hr' & Hx)]; auto.
      * right. exists r. split; [now left | exact Hp].
      * right. exists r'. split; [now right | exact Hx].
    + intros [Hx|(r' & [<-|Hr'] & Hx)]; auto.
      * left. right. congruence.
      * right. now exists r'.
Qed.

(** [filterErrorLogs], run on profiles that cover the addresses of the rule
    errors, holds a collection for exactly the rule ids of the input.  The
    collection of an id carries the first input record of the id, and lists,
    each once, the profiles of the addresses that broke the rule. *)
Lemma regrouped_collection (ruleErrors : list IRuleError.t) (id : string) :
  (forall r, In r ruleErrors ->
     exists p, Map_get ips (IRuleError.ip r) = Some p /\ IP.ip p = IRuleError.ip r) ->
  match Map_get (filterErrorLogs ruleErrors ips) id with
  | None => FPFilterSpec.records_of id ruleErrors = []
  | Some c =>
      exists r0 l,
        FPFilterSpec.records_of id ruleErrors = r0 :: l
        /\ RuleErrorCollection.ruleError c = r0
        /\ NoDup (map IP.ip (RuleErrorCollection.ips c))
        /\ forall x, In x (RuleErrorCollection.ips c)
                     <-> exists r, In r (r0 :: l)
                                   /\ Map_get ips (IRuleError.ip r) = Some x
  end.
Proof.
  intros Hall. unfold filterErrorLogs. rewrite (regroup_lookup _ _ _ Hall). simpl.
  destruct (FPFilterSpec.records_of id ruleErrors) as [|r0 l] eqn:Erec; [reflexivity|].
  assert (Hrec : forall r, In r (r0 :: l) -> profiled r).
  { intros r Hr. apply Hall. rewrite <- Erec in Hr. now apply filter_In in Hr. }
  destruct (Hrec r0 (or_introl eq_refl)) as (p0 & Hp0 & Hip0).
  unfold start. rewrite Hp0. simpl.
  destruct (added_spec l {| RuleErrorCollection.ruleError := r0;
                            RuleErrorCollection.ips := [p0] |})
    as ((Hnd & _) & Hrule & Hmem).
  { intros r Hr. apply Hrec. now right. }
  { split; simpl.
    - constructor; [intros [] | constructor].
    - intros x [<-|[]]. now rewrite Hip0. }
  exists r0, l. repeat split; try assumption.
  - intros Hx. apply Hmem in Hx as [[<-|[]]|(r & Hr & Hx)].
    + exists r0. split; [now left | exact Hp0].
    + exists r. split; [now right | exact Hx].
  - intros (r & [<-|Hr] & Hx); apply Hmem.
    + left. left. congruence.
    + right. now exists r.
Qed.

End RegroupFacts.

(** ** LogFilter: the result of [filter] *)

Section FilterResult.
Import LogFilter LogFilterSpec.

Variable dns : NsLookup.resolver.
Variable world0 : NsLookup.world.
Variable normalLogs : list INormalLog.t.
Variable ruleErrors : list IRuleError.t.
Variable doNSLookup : bool.

(** The profile of [k] when [filterErrorLogs] runs. *)
Let final (k : string) : option IP.t :=
  option_map (overlaid k normalLogs)
    (gathered (lookup_text dns world0 doNSLookup k) k
              (List.filter (fun r => IRuleError.ip r =? k)%string ruleErrors)).

Lemma filter_pipeline filtered :
  LogFilter.filter dns world0 normalLogs ruleErrors doNSLookup
  = Promise.Fulfilled filtered ->
  exists ips,
    filtered = filterErrorLogs ruleErrors ips
    /\ (forall k, Map_get ips k = final k).
Proof.
  unfold LogFilter.filter, gatherIPs.
  destruct (Promise.all _); try discriminate. simpl. intros [= <-].
  eexists. split; [reflexivity|].
  intros k. rewrite filterNormalLogs_get, gathered_get. reflexivity.
Qed.

Lemma final_profiled r :
  In r ruleErrors ->
  exists p, final (IRuleError.ip r) = Some p /\ IP.ip p = IRuleError.ip r.
Proof.
  intros Hr. unfold final.
  destruct (List.filter (fun x => IRuleError.ip x =? IRuleError.ip r)%string ruleErrors)
    as [|a m] eqn:E.
  - exfalso. assert (Hin : In r []); [|contradiction].
    rewrite <- E. apply filter_In. split; [exact Hr | apply String.eqb_refl].
  - eexists. split; reflexivity.
Qed.

Lemma final_ip k p : final k = Some p -> IP.ip p = k.
Proof.
  unfold final.
  destruct (List.filter (fun x => IRuleError.ip x =? k)%string ruleErrors);
    [discriminate|].
  now intros [= <-].
Qed.

(** X18.  When [filter] resolves, it holds a collection for exactly the rule
    ids of the input.  The collection of an id carries the first input record
    of the id, and lists one profile for each address that broke the rule,
    each address once. *)
Theorem filter_groups_addresses_by_rule
  (filtered : JSMap RuleErrorCollection.t) (id : string) :
  LogFilter.filter dns world0 normalLogs ruleErrors doNSLookup
  = Promise.Fulfilled filtered ->
  match Map_get filtered id with
  | None => FPFilterSpec.records_of id ruleErrors = []
  | Some c =>
      exists r0 l,
        FPFilterSpec.records_of id ruleErrors = r0 :: l
        /\ RuleErrorCollection.ruleError c = r0
        /\ NoDup (map IP.ip (RuleErrorCollection.ips c))
        /\ forall k, In k (map IP.ip (RuleErrorCollection.ips c))
                     <-> exists r, In r (r0 :: l) /\ IRuleError.ip r = k
  end.
Proof.
  intros Hfilter. destruct (filter_pipeline _ Hfilter) as (ips & -> & Hget).
  assert (Hall : forall r, In r ruleErrors ->
            exists p, Map_get ips (IRuleError.ip r) = Some p
                      /\ IP.ip p = IRuleError.ip r).
  { intros r Hr. rewrite Hget. now apply final_profiled. }
  pose proof (regrouped_collection ips ruleErrors id Hall) as H.
  destruct (Map_get (filterErrorLogs ruleErrors ips) id) as [c|]; [|exact H].
  destruct H as (r0 & l & Erec & Hrule & Hnd & Hmem).
  exists r0, l. repeat split; try assumption.
  - intros Hk. apply in_map_iff in Hk as (p & <- & Hp).
    apply Hmem in Hp as (r & Hr & Hp). exists r. split; [exact Hr|].
    rewrite Hget in Hp. symmetry. now apply final_ip.
  - intros (r & Hr & <-).
    assert (Hr' : In r ruleErrors).
    { rewrite <- Erec in Hr. now apply filter_In in Hr. }
    destruct (Hall r Hr') as (p & Hp & Hip).
    apply in_map_iff. exists p. split; [exact Hip|].
    apply Hmem. now exists r.
Qed.

(** X19.  When [filter] resolves, every profile listed under a rule holds the
    whole history of its address, not only what concerns that rule: all the
    rule errors of the address, all its requests of the normal log, those of
    them not answered 200, each in input order; the first non-empty user
    agent of its requests; and the text of its lookup. *)
Theorem listed_profile_holds_whole_history
  (filtered : JSMap RuleErrorCollection.t) (id : string)
  (c : RuleErrorCollection.t) (p : IP.t) :
  LogFilter.filter dns world0 normalLogs ruleErrors doNSLookup
  = Promise.Fulfilled filtered ->
  Map_get filtered id = Some c ->
  In p (RuleErrorCollection.ips c) ->
  IP.brokenRules p
  = List.filter (fun r => IRuleError.ip r =? IP.ip p)%string ruleErrors
  /\ IP.allActivities p = List.filter (is_of (IP.ip p)) normalLogs
  /\ IP.rejectedRequests p = List.filter (rejected_of (IP.ip p)) normalLogs
  /\ IP.useragent p
     = match find (agent_of (IP.ip p)) normalLogs with
       | Some n => INormalLog.useragent n
       | None => ""%string
       end
  /\ IP.nsLookup p = lookup_text dns world0 doNSLookup (IP.ip p).
Proof.
  intros Hfilter Hc Hp. destruct (filter_pipeline _ Hfilter) as (ips & -> & Hget).
  assert (Hall : forall r, In r ruleErrors ->
            exists q, Map_get ips (IRuleError.ip r) = Some q
                      /\ IP.ip q = IRuleError.ip r).
  { intros r Hr. rewrite Hget. now apply final_profiled. }
  pose proof (regrouped_collection ips ruleErrors id Hall) as H.
  rewrite Hc in H. destruct H as (r0 & l & _ & _ & _ & Hmem).
  apply Hmem in Hp as (r & _ & Hp). rewrite Hget in Hp. unfold final in Hp.
  destruct (List.filter (fun x => IRuleError.ip x =? IRuleError.ip r)%string ruleErrors)
    as [|a m] eqn:E; [discriminate|].
  simpl in Hp. injection Hp as <-. simpl. rewrite E. repeat split.
Qed.

End FilterResult.

Section FilterWitnesses.
Import LogFilter LogFilterSpec.

Lemma profile_holds_rule_errors_of_address_witness :
  Map_get Cases.profiles "1.1.1.1"
  = gathered "no-lookup" "1.1.1.1" [Sample.sqli_first; Sample.sqli_again].
Proof.
  exact (profile_holds_rule_errors_of_address Sample.dns_failing NsLookup.start
           Cases.errors_seen false Cases.profiles "1.1.1.1" eq_refl).
Defined.

Lemma filter_groups_addresses_by_rule_witness :
  exists r0 l,
    FPFilterSpec.records_of "942100" Cases.errors_seen = r0 :: l
    /\ RuleErrorCollection.ruleError Cases.injection_collection = r0
    /\ NoDup (map IP.ip (RuleErrorCollection.ips Cases.injection_collection))
    /\ forall k, In k (map IP.ip (RuleErrorCollection.ips Cases.injection_collection))
                 <-> exists r, In r (r0 :: l) /\ IRuleError.ip r = k.
Proof.
  exact (filter_groups_addresses_by_rule Sample.dns_failing NsLookup.start
           Cases.requests_seen Cases.errors_seen false Cases.inspected "942100"
           eq_refl).
Defined.

Lemma listed_profile_holds_whole_history_witness :
  IP.brokenRules Cases.injection_profile = [Sample.sqli_first; Sample.sqli_again]
  /\ IP.allActivities Cases.injection_profile = [Cases.accepted; Sample.forbidden_inside]
  /\ IP.rejectedRequests Cases.injection_profile = [Sample.forbidden_inside]
  /\ IP.useragent Cases.injection_profile = "curl/7.68.0"%string
  /\ IP.nsLookup Cases.injection_profile = "no-lookup"%string.
Proof.
  exact (listed_profile_holds_whole_history Sample.dns_failing NsLookup.start
           Cases.requests_seen Cases.errors_seen false Cases.inspected "942100"
           Cases.injection_collection Cases.injection_profile
           eq_refl eq_refl (or_introl eq_refl)).
Defined.

End FilterWitnesses.

(** ** EntireLogReviewer: dates and the text of a breakdown *)

Section DateFacts.
Import LogFilter EntireLogReviewer DateSpec.
Local Open Scope string_scope.

Lemma split_length sep s : List.length (JS.split sep s) = S (count_char sep s).
Proof.
  induction s as [|c s IH]; simpl; [reflexivity|].
  destruct (Ascii.eqb c sep); simpl; [now rewrite IH|].
  destruct (JS.split sep s); simpl in *; [discriminate | exact IH].
Qed.

Lemma split_free sep s : free_of sep s = true -> JS.split sep s = [s].
Proof.
  unfold free_of. induction s as [|c s IH]; simpl; [reflexivity|].
  destruct (Ascii.eqb c sep); [discriminate|].
  intros H. now rewrite IH.
Qed.

Lemma split_field sep a b :
  free_of sep a = true ->
  JS.split sep (a ++ String sep b) = a :: JS.split sep b.
Proof.
  unfold free_of. induction a as [|c a IH]; simpl.
  - now rewrite Ascii.eqb_refl.
  - destruct (Ascii.eqb c sep); [discriminate|].
    intros H. now rewrite IH.
Qed.

Lemma replace_first_field c r a b :
  free_of c a = true ->
  JS.replace_first_char c r (a ++ String c b) = a ++ r ++ b.
Proof.
  unfold free_of. induction a as [|d a IH]; simpl.
  - now rewrite Ascii.eqb_refl.
  - destruct (Ascii.eqb d c); [discriminate|].
    intros H. now rewrite IH.
Qed.

Lemma count_char_append c a b :
  count_char c (a ++ b) = (count_char c a + count_char c b)%nat.
Proof.
  induction a as [|d a IH]; simpl; [reflexivity|].
  destruct (Ascii.eqb d c); simpl; now rewrite IH.
Qed.

Variable Date_parse : string -> Date.
Variable Date_getHours : Z -> Z.
Variable Date_getMinutes : Z -> Z.

(** X20.  On a date of the access log, day/month/year:time+zone, [fixDate]
    hands the host's parser month/day/year, a space, and the time: day and
    month are swapped, the first colon becomes a space, and the zone is
    dropped together with the plus sign. *)
Theorem fixDate_swaps_day_and_month (day month year time zone : string) :
  free_of "/" day = true ->
  free_of "/" month = true ->
  free_of "/" year = true -> free_of ":" year = true -> free_of "+" year = true ->
  free_of "/" time = true -> free_of "+" time = true ->
  free_of "/" zone = true ->
  fixDate Date_parse (day ++ "/" ++ month ++ "/" ++ year ++ ":" ++ time ++ "+" ++ zone)
  = JS.Return (Date_parse (month ++ "/" ++ day ++ "/" ++ year ++ " " ++ time)).
Proof.
  intros Hd Hm Hy1 Hy2 Hy3 Ht1 Ht2 Hz.
  unfold fixDate. simpl append.
  rewrite (split_field "/" day) by exact Hd.
  rewrite (split_field "/" month) by exact Hm.
  rewrite split_free.
  2:{ unfold free_of in *. simpl. rewrite !count_char_append. simpl.
      rewrite !count_char_append. simpl.
      apply Nat.eqb_eq in Hy1, Ht1, Hz. rewrite Hy1, Ht1, Hz. reflexivity. }
  simpl nth_error. cbv beta iota.
  rewrite (replace_first_field ":" " " year) by exact Hy2. simpl append.
  change (year ++ String " " (time ++ String "+" zone))
    with (year ++ " " ++ time ++ String "+" zone).
  rewrite <- !append_assoc.
  rewrite (split_field "+" ((year ++ " ") ++ time)).
  2:{ unfold free_of in *. rewrite !count_char_append. simpl.
      apply Nat.eqb_eq in Hy3, Ht2. rewrite Hy3, Ht2. reflexivity. }
  simpl hd. now rewrite !append_assoc.
Qed.

End DateFacts.

Section BreakdownFacts.
Import LogFilter EntireLogReviewer DateSpec.
Local Open Scope string_scope.

Variable Date_parse : string -> Date.
Variable Date_getHours : Z -> Z.
Variable Date_getMinutes : Z -> Z.

Lemma fixDate_fields (date : string) :
  match fixDate Date_parse date with
  | JS.Return _ => (2 <= count_char "/" date)%nat
  | JS.Throw e => (count_char "/" date < 2)%nat /\ e = no_replace
  end.
Proof.
  unfold fixDate. pose proof (split_length "/" date) as Hlen.
  destruct (JS.split "/" date) as [|a [|b [|c l]]]; simpl in *;
    try (split; [lia | reflexivity]); lia.
Qed.

(** X21.  [fixDate] fails exactly on the strings with fewer than two
    slashes, always with the same TypeError; on every other string it returns
    what the host's parser makes of the rearranged text, be it an invalid
    date. *)
Theorem fixDate_needs_two_slashes (date : string) :
  (fixDate Date_parse date = JS.Throw no_replace <-> (count_char "/" date < 2)%nat)
  /\ ((exists d, fixDate Date_parse date = JS.Return d)
      <-> (2 <= count_char "/" date)%nat).
Proof.
  pose proof (fixDate_fields date) as H.
  destruct (fixDate Date_parse date) as [d|e].
  - split; split; intros H'; try discriminate; try lia; eauto.
  - destruct H as [Hlt ->]. split; split; intros H'; try reflexivity; try lia.
    now destruct H' as [d H'].
Qed.

Let scan_rule := scan_rule Date_parse Date_getHours Date_getMinutes.
Let rule_row := rule_row Date_parse Date_getHours Date_getMinutes.

Lemma scanned_rows (l : list IRuleError.t) : forall s,
  (0 <= i s)%Z ->
  top10Data (fold_left scan_rule l s)
  = top10Data s ++ String.concat "" (map rule_row (firstn (Z.to_nat (10 - i s)) l)).
Proof.
  induction l as [|r l IH]; intros s Hi.
  - simpl. rewrite firstn_nil. simpl. now rewrite append_nil_r.
  - simpl fold_left. rewrite IH by (simpl; lia).
    unfold scan_rule at 1 2, EntireLogReviewer.scan_rule. cbn [top10Data i].
    destruct (Z.leb_spec (i s) 9) as [Hle|Hgt].
    + replace (Z.to_nat (10 - i s)) with (S (Z.to_nat (10 - (i s + 1)))) by lia.
      cbn [firstn map]. rewrite concat_cons.
      unfold rule_row at 2, DateSpec.rule_row. rewrite !append_assoc. reflexivity.
    + replace (Z.to_nat (10 - (i s + 1))) with O by lia.
      replace (Z.to_nat (10 - i s)) with O by lia. reflexivity.
Qed.

(** X22.  The "top 10" part of a breakdown lists the first ten broken-rule
    records of the rule in the profile, in input order: one line each, no
    ranking and no merging of equal payloads. *)
Theorem top10_is_first_ten_records (ip : IP.t) (id : string) :
  top10Data (scan_rules Date_parse Date_getHours Date_getMinutes ip id)
  = ("Top 10 most used data:" ++ LF)
    ++ String.concat ""
         (map rule_row
              (firstn 10 (List.filter (fun x => IRuleError.id x =? id)
                                      (IP.brokenRules ip)))).
Proof.
  unfold scan_rules. fold scan_rule. rewrite scanned_rows by (simpl; lia).
  reflexivity.
Qed.

Lemma rendered_rejects_returns s (l : list INormalLog.t) :
  (exists rows, rendered_rejects Date_parse s l = JS.Return rows)
  <-> forall n, In n l -> (2 <= count_char "/" (INormalLog.date n))%nat.
Proof.
  induction l as [|x l IH]; simpl.
  - split; [intros _ n [] | eauto].
  - pose proof (fixDate_fields (INormalLog.date x)) as Hx.
    destruct (fixDate Date_parse (INormalLog.date x)) as [d|e]; simpl.
    + destruct (rendered_rejects Date_parse s l) as [rows|e]; simpl.
      * split; [|eauto]. intros _ n [<-|Hn]; [exact Hx|].
        apply (proj1 IH); eauto.
      * split.
        -- intros [rows H]. discriminate.
        -- intros H. destruct (proj2 IH) as [rows Hrows]; [|discriminate].
           intros n Hn. apply H. now right.
    + destruct Hx as [Hlt _]. split.
      * intros [rows H]. discriminate.
      * intros H. specialize (H x (or_introl eq_refl)). lia.
Qed.

Lemma rendered_rejects_throws s (l : list INormalLog.t) e :
  rendered_rejects Date_parse s l = JS.Throw e ->
  e = no_replace
  /\ exists n, In n l /\ (count_char "/" (INormalLog.date n) < 2)%nat.
Proof.
  induction l as [|x l IH]; simpl; [discriminate|].
  pose proof (fixDate_fields (INormalLog.date x)) as Hx.
  destruct (fixDate Date_parse (INormalLog.date x)) as [d|e']; simpl.
  - destruct (rendered_rejects Date_parse s l) as [rows|e']; simpl; [discriminate|].
    intros [= <-]. destruct (IH eq_refl) as (He & n & Hn & Hlt).
    split; [exact He|]. exists n. split; [now right | exact Hlt].
  - destruct Hx as [Hlt ->]. intros [= <-].
    split; [reflexivity|]. exists x. split; [now left | exact Hlt].
Qed.

Lemma getBreakdown_by_rows (ip : IP.t) (id : string) :
  getBreakdown Date_parse Date_getHours Date_getMinutes ip id
  = JS.bind (rendered_rejects Date_parse
               (scan_rules Date_parse Date_getHours Date_getMinutes ip id)
               (IP.rejectedRequests ip))
      (fun rows =>
         JS.Return
           (top10Data (scan_rules Date_parse Date_getHours Date_getMinutes ip id) ++ LF
            ++ (("Rejected requests:" ++ LF ++ ";")
                ++ String.concat ""
                     (map (fun row => reject_row Date_getHours Date_getMinutes
                                                 (fst row) (snd row)) rows))
            ++ LF)).
Proof.
  unfold getBreakdown. rewrite reject_loop. simpl.
  now destruct (rendered_rejects Date_parse _ (IP.rejectedRequests ip)).
Qed.

Lemma breakdown_needs_wellformed_dates_core (ip : IP.t) (id : string) :
  match getBreakdown Date_parse Date_getHours Date_getMinutes ip id with
  | JS.Return _ =>
      forall n, In n (IP.rejectedRequests ip) ->
                (2 <= count_char "/" (INormalLog.date n))%nat
  | JS.Throw e =>
      e = no_replace
      /\ exists n, In n (IP.rejectedRequests ip)
                   /\ (count_char "/" (INormalLog.date n) < 2)%nat
  end.
Proof.
  rewrite getBreakdown_by_rows.
  set (s := scan_rules Date_parse Date_getHours Date_getMinutes ip id).
  destruct (rendered_rejects Date_parse s (IP.rejectedRequests ip)) as [rows|e] eqn:E;
    simpl.
  - apply (rendered_rejects_returns s). eauto.
  - now apply (rendered_rejects_throws s).
Qed.

(** X23.  [getBreakdown] returns a text exactly when the date of every
    rejected request of the profile has at least two slashes, whether the
    request falls into the window of the rule or not; otherwise it raises the
    TypeError of [fixDate]. *)
Theorem breakdown_needs_wellformed_dates (ip : IP.t) (id : string) :
  ((exists text, getBreakdown Date_parse Date_getHours Date_getMinutes ip id
                 = JS.Return text)
   <-> forall n, In n (IP.rejectedRequests ip) ->
                 (2 <= count_char "/" (INormalLog.date n))%nat)
  /\ (forall e, getBreakdown Date_parse Date_getHours Date_getMinutes ip id = JS.Throw e ->
                e = no_replace).
Proof.
  pose proof (breakdown_needs_wellformed_dates_core ip id) as H.
  destruct (getBreakdown Date_parse Date_getHours Date_getMinutes ip id) as [text|e].
  - split; [split; [intros _; exact H | eauto] | discriminate].
  - destruct H as (-> & n & Hn & Hlt). split.
    + split; [intros [text Ht]; discriminate|].
      intros Hall. specialize (Hall n Hn). lia.
    + now intros e [= <-].
Qed.

End BreakdownFacts.

(** ** EntireLogReviewer: when the review is delivered *)

Section ReviewFacts.
Import LogFilter LogFilterSpec EntireLogReviewer DateSpec.
Local Open Scope string_scope.

Variable Date_parse : string -> Date.
Variable Date_getHours : Z -> Z.
Variable Date_getMinutes : Z -> Z.
Variable dns : NsLookup.resolver.
Variable world0 : NsLookup.world.
Variable normalLogs : list INormalLog.t.
Variable ruleErrors : list IRuleError.t.

Let getBreakdown := getBreakdown Date_parse Date_getHours Date_getMinutes.

(** A loop that threads a text through computations that may throw. *)
Lemma bind_fold_returns {X} (f : X -> JS.result string)
  (g : string -> X -> string -> string) (l : list X) : forall acc,
  (exists t, fold_left (fun acc x =>
                          JS.bind acc (fun str =>
                          JS.bind (f x) (fun b => JS.Return (g str x b))))
                       l acc = JS.Return t)
  <-> (exists t, acc = JS.Return t) /\ forall x, In x l -> exists b, f x = JS.Return b.
Proof.
  induction l as [|x l IH]; intros acc; simpl.
  - split; [intros H; split; [exact H | intros x []] | intros [H _]; exact H].
  - rewrite IH. split.
    + intros [[t Ht] Hl]. destruct acc as [str|e]; [|discriminate]. simpl in Ht.
      destruct (f x) as [b|e] eqn:Ef; [|discriminate].
      split; [eauto|]. intros y [<-|Hy]; [eauto | auto].
    + intros [[t ->] Hl]. split; [|intros y Hy; apply Hl; now right].
      destruct (Hl x (or_introl eq_refl)) as [b ->]. simpl. eauto.
Qed.

Lemma bind_fold_throws {X} (f : X -> JS.result string)
  (g : string -> X -> string -> string) (l : list X) e : forall acc,
  fold_left (fun acc x =>
               JS.bind acc (fun str =>
               JS.bind (f x) (fun b => JS.Return (g str x b))))
            l acc = JS.Throw e ->
  acc = JS.Throw e \/ exists x, In x l /\ f x = JS.Throw e.
Proof.
  induction l as [|x l IH]; intros acc; simpl; [now left|].
  intros H. apply IH in H as [H|(y & Hy & H)].
  - destruct acc as [str|e']; [|now left]. simpl in H.
    destruct (f x) as [b|e'] eqn:Ef; [discriminate|]. simpl in H.
    right. exists x. split; [now left | congruence].
  - right. exists y. split; [now right | exact H].
Qed.

Lemma render_returns (filtered : JSMap RuleErrorCollection.t) : forall acc,
  (exists t,
     fold_left
       (fun acc entry =>
          fold_left
            (fun acc ip =>
               JS.bind acc (fun str =>
               JS.bind (getBreakdown ip (fst entry)) (fun breakdown =>
               JS.Return (str ++ getHeader ip ++ breakdown))))
            (RuleErrorCollection.ips (snd entry))
            (JS.bind acc (fun str =>
               JS.Return
                 (str ++ "["
                  ++ JS.number_to_string
                       (Z.of_nat (List.length (RuleErrorCollection.ips (snd entry))))
                  ++ "] " ++ fst entry ++ " - "
                  ++ RuleErrorCollection.msg (snd entry) ++ LF))))
       filtered acc = JS.Return t)
  <-> (exists t, acc = JS.Return t)
      /\ forall entry p, In entry filtered -> In p (RuleErrorCollection.ips (snd entry)) ->
           exists b, getBreakdown p (fst entry) = JS.Return b.
Proof.
  induction filtered as [|entry l IH]; intros acc; simpl fold_left.
  - split; [intros H; split; [exact H | intros e p []] | intros [H _]; exact H].
  - rewrite IH.
    rewrite (bind_fold_returns (fun ip => getBreakdown ip (fst entry))
               (fun str ip breakdown => str ++ getHeader ip ++ breakdown)).
    split.
    + intros [[[t Ht] Hps] Hl]. destruct acc as [str|e]; [|discriminate].
      split; [eauto|]. intros e p [<-|He] Hp; [now apply Hps | now apply Hl].
    + intros [[t ->] Hl]. split; [split|].
      * simpl. eauto.
      * intros p Hp. apply (Hl entry p); [now left | exact Hp].
      * intros e p He Hp. apply (Hl e p); [now right | exact Hp].
Qed.

Lemma render_throws (filtered : JSMap RuleErrorCollection.t) e : forall acc,
  fold_left
    (fun acc entry =>
       fold_left
         (fun acc ip =>
            JS.bind acc (fun str =>
            JS.bind (getBreakdown ip (fst entry)) (fun breakdown =>
            JS.Return (str ++ getHeader ip ++ breakdown))))
         (RuleErrorCollection.ips (snd entry))
         (JS.bind acc (fun str =>
            JS.Return
              (str ++ "["
               ++ JS.number_to_string
                    (Z.of_nat (List.length (RuleErrorCollection.ips (snd entry))))
               ++ "] " ++ fst entry ++ " - "
               ++ RuleErrorCollection.msg (snd entry) ++ LF))))
    filtered acc = JS.Throw e ->
  acc = JS.Throw e
  \/ exists entry p, In entry filtered /\ In p (RuleErrorCollection.ips (snd entry))
                     /\ getBreakdown p (fst entry) = JS.Throw e.
Proof.
  induction filtered as [|entry l IH]; intros acc; simpl fold_left; [now left|].
  intros H. apply IH in H as [H|(entry' & p & He & Hp & H)].
  - apply (bind_fold_throws (fun ip => getBreakdown ip (fst entry))
             (fun str ip breakdown => str ++ getHeader ip ++ breakdown)) in H
      as [H|(p & Hp & H)].
    + destruct acc as [str|e']; [discriminate | now left].
    + right. exists entry, p. repeat split; [now left | exact Hp | exact H].
  - right. exists entry', p. repeat split; [now right | exact Hp | exact H].
Qed.

Lemma regrouped_NoDup ips rs : forall (m : JSMap RuleErrorCollection.t),
  NoDup (Map_keys m) -> NoDup (Map_keys (fold_left (regroup ips) rs m)).
Proof.
  apply (fold_left_invariant (fun m => NoDup (Map_keys m))).
  intros m r Hnd. unfold regroup.
  destruct (Map_get m (IRuleError.id r)) as [c|];
    destruct (Map_get ips (IRuleError.ip r)) as [p|]; try exact Hnd.
  - destruct (Array_find _ (RuleErrorCollection.ips c)); [exact Hnd|].
    now apply Map_set_NoDup.
  - now apply Map_set_NoDup.
Qed.

(** The profiles listed by [filter] are those of the addresses of the rule
    errors, with the rejected requests of their address. *)
Lemma listed_profile doNSLookup filtered id c p :
  LogFilter.filter dns world0 normalLogs ruleErrors doNSLookup
  = Promise.Fulfilled filtered ->
  In (id, c) filtered ->
  In p (RuleErrorCollection.ips c) ->
  (exists r, In r ruleErrors /\ IRuleError.ip r = IP.ip p)
  /\ IP.rejectedRequests p = List.filter (rejected_of (IP.ip p)) normalLogs.
Proof.
  intros Hfilter Hc Hp.
  destruct (filter_pipeline _ _ _ _ _ _ Hfilter) as (ips & -> & Hget).
  apply In_Map_get in Hc; [|apply regrouped_NoDup; constructor].
  assert (Hall : forall r, In r ruleErrors ->
            exists q, Map_get ips (IRuleError.ip r) = Some q
                      /\ IP.ip q = IRuleError.ip r).
  { intros r Hr. rewrite Hget. now apply final_profiled. }
  pose proof (regrouped_collection ips ruleErrors id Hall) as H.
  rewrite Hc in H. destruct H as (r0 & l & Erec & _ & _ & Hmem).
  apply Hmem in Hp as (r & Hr & Hp). rewrite Hget in Hp.
  assert (Hr' : In r ruleErrors).
  { rewrite <- Erec in Hr. now apply filter_In in Hr. }
  destruct (List.filter (fun x => IRuleError.ip x =? IRuleError.ip r)%string ruleErrors)
    as [|a m] eqn:E; [discriminate|].
  simpl in Hp. injection Hp as <-. simpl. split; [now exists r | reflexivity].
Qed.

Lemma every_address_listed doNSLookup filtered r :
  LogFilter.filter dns world0 normalLogs ruleErrors doNSLookup
  = Promise.Fulfilled filtered ->
  In r ruleErrors ->
  exists id c p, In (id, c) filtered /\ In p (RuleErrorCollection.ips c)
                 /\ IP.ip p = IRuleError.ip r.
Proof.
  intros Hfilter Hr.
  destruct (filter_pipeline _ _ _ _ _ _ Hfilter) as (ips & -> & Hget).
  assert (Hall : forall x, In x ruleErrors ->
            exists q, Map_get ips (IRuleError.ip x) = Some q
                      /\ IP.ip q = IRuleError.ip x).
  { intros x Hx. rewrite Hget. now apply final_profiled. }
  pose proof (regrouped_collection ips ruleErrors (IRuleError.id r) Hall) as H.
  assert (Hrec : In r (FPFilterSpec.records_of (IRuleError.id r) ruleErrors)).
  { apply filter_In. split; [exact Hr | apply String.eqb_refl]. }
  destruct (Map_get (filterErrorLogs ruleErrors ips) (IRuleError.id r)) as [c|] eqn:Ec.
  - destruct H as (r0 & l & Erec & _ & _ & Hmem). rewrite Erec in Hrec.
    destruct (Hall r Hr) as (q & Hq & Hip).
    exists (IRuleError.id r), c, q. repeat split; [| |exact Hip].
    + now apply Map_get_In.
    + apply Hmem. now exists r.
  - rewrite H in Hrec. contradiction.
Qed.

Lemma filter_without_lookups :
  exists filtered,
    LogFilter.filter dns world0 normalLogs ruleErrors false = Promise.Fulfilled filtered.
Proof.
  unfold LogFilter.filter, gatherIPs. rewrite gathered_without_lookups.
  simpl. eauto.
Qed.

(** X24.  With lookups disabled the promise of [getReview] always settles.
    It is fulfilled with the report unless the normal log holds a request not
    answered 200, from an address that broke a rule, whose date has fewer
    than two slashes; one such request makes the whole review reject with the
    TypeError of [fixDate]. *)
Theorem review_without_lookups_always_settles :
  match EntireLogReviewer.getReview Date_parse Date_getHours Date_getMinutes
          dns world0 normalLogs ruleErrors false with
  | Promise.Fulfilled _ =>
      forall n r, In n normalLogs -> In r ruleErrors ->
                  INormalLog.ip n = IRuleError.ip r ->
                  INormalLog.statusCode n <> "200" ->
                  (2 <= count_char "/" (INormalLog.date n))%nat
  | Promise.Rejected reason =>
      reason = Promise.Exn no_replace
      /\ exists n r, In n normalLogs /\ In r ruleErrors
                     /\ INormalLog.ip n = IRuleError.ip r
                     /\ INormalLog.statusCode n <> "200"
                     /\ (count_char "/" (INormalLog.date n) < 2)%nat
  | Promise.Pending => False
  end.
Proof.
  destruct filter_without_lookups as [filtered Hfilter].
  unfold EntireLogReviewer.getReview. rewrite Hfilter.
  destruct (render Date_parse Date_getHours Date_getMinutes filtered) as [text|e] eqn:Er;
    unfold render in Er; cbv zeta in Er.
  - intros n r Hn Hr Hip Hstatus.
    destruct (every_address_listed false filtered r Hfilter Hr) as (id & c & p & Hc & Hp & Hpip).
    assert (Hb : exists b, getBreakdown p id = JS.Return b).
    { apply (proj2 (proj1 (render_returns filtered (JS.Return "")) (ex_intro _ text Er))
               (id, c) p Hc Hp). }
    destruct Hb as [b Hb].
    pose proof (breakdown_needs_wellformed_dates_core
                  Date_parse Date_getHours Date_getMinutes p id) as Hcore.
    unfold getBreakdown in Hb. rewrite Hb in Hcore. apply Hcore.
    destruct (listed_profile false filtered id c p Hfilter Hc Hp) as [_ ->].
    apply filter_In. split; [exact Hn|].
    unfold rejected_of, is_of. rewrite Hip, Hpip, String.eqb_refl. simpl.
    apply negb_true_iff. now apply String.eqb_neq.
  - apply render_throws in Er as [Er|(entry & p & Hc & Hp & Hb)]; [discriminate|].
    destruct entry as [id c]. simpl in Hp, Hb.
    pose proof (breakdown_needs_wellformed_dates_core
                  Date_parse Date_getHours Date_getMinutes p id) as Hcore.
    unfold getBreakdown in Hb. rewrite Hb in Hcore.
    destruct Hcore as (-> & n & Hn & Hlt). split; [reflexivity|].
    destruct (listed_profile false filtered id c p Hfilter Hc Hp) as [(r & Hr & Hip) Erej].
    rewrite Erej in Hn. apply filter_In in Hn as [Hn Hrej].
    unfold rejected_of, is_of in Hrej. apply andb_prop in Hrej as [Hk Hstatus].
    exists n, r. repeat split; try assumption.
    + apply String.eqb_eq in Hk. congruence.
    + apply negb_true_iff in Hstatus. now apply String.eqb_neq.
Qed.

End ReviewFacts.

Section DateWitnesses.
Import EntireLogReviewer.

Lemma fixDate_swaps_day_and_month_witness :
  fixDate Sample.clock "15/Jan/2020:10:05:00 +0000" = JS.Return (Some 36300%Z).
Proof.
  exact (fixDate_swaps_day_and_month Sample.clock "15" "Jan" "2020" "10:05:00 " "0000"
           eq_refl eq_refl eq_refl eq_refl eq_refl eq_refl eq_refl eq_refl).
Defined.

End DateWitnesses.
